(** * audlib.sig.util: a shallow embedding of the signal utilities

    The module [audlib/sig/util.py] is a collection of NumPy routines:
    frequency responses of FIR and IIR filters, additive noise at a
    target SNR, random segment sampling, uniform quantization and peak
    normalization.

    Conventions of the embedding.
    - A Python [int] is a [Z]; a length or a count is a [nat].
    - A NumPy [float64] is a [float64] below: an exact real number or one
      of the three IEEE special values.  Arithmetic on finite values is
      exact (no rounding); the special values follow IEEE 754, which is
      what NumPy does on a division by zero.  Zero is unsigned and is
      read as [+0.0].  The one overflow that changes the control flow is
      modelled: Python's [10 ** y] raises [OverflowError] when the power
      leaves the range of a float64.
    - The transform [numpy.fft.fft] is the exact discrete Fourier
      transform; NumPy computes it in floating point, so a bin whose
      exact value is zero through cancellation of nonzero terms may come
      out as a value of the order of 1e-16 there.
    - A one-dimensional [ndarray] is a [list]; the caller-visible store
      of arrays is modelled only where the code writes into an argument
      ([quantize]).
    - The process-wide random source of [numpy.random] is an explicit
      stream of draws threaded through the stochastic routines.
    - A Python exception is the [Raise] branch of [result]. *)

From Stdlib Require Import Reals Lra Lia ZArith List Bool Arith.
Import ListNotations.

Set Implicit Arguments.

(** ** Exceptions and the state-and-error monad *)

Inductive exn : Type :=
| AssertionError
| ValueError
| ZeroDivisionError
| IndexError
| OverflowError.

Inductive result (A : Type) : Type :=
| Ok (a : A)
| Raise (e : exn).

Arguments Ok {A} a.
Arguments Raise {A} e.

Definition M (S A : Type) : Type := S -> result (A * S).

Definition ret {S A : Type} (a : A) : M S A := fun s => Ok (a, s).

Definition bind {S A B : Type} (m : M S A) (k : A -> M S B) : M S B :=
  fun s => match m s with
           | Ok (a, s') => k a s'
           | Raise e => Raise e
           end.

Definition raise {S A : Type} (e : exn) : M S A := fun _ => Raise e.

Definition lift {S A : Type} (r : result A) : M S A :=
  fun s => match r with
           | Ok a => Ok (a, s)
           | Raise e => Raise e
           end.

Declare Scope monad_scope.
Delimit Scope monad_scope with monad.
Notation "x <- m ;; k" := (bind m (fun x => k))
  (at level 61, m at next level, right associativity) : monad_scope.
Notation "m ;;; k" := (bind m (fun _ => k))
  (at level 61, right associativity) : monad_scope.

Definition rbind {A B : Type} (r : result A) (k : A -> result B) : result B :=
  match r with
  | Ok a => k a
  | Raise e => Raise e
  end.

(** ** Python integers *)

(** [int.bit_length()]: the number of bits of the absolute value. *)
Definition bit_length (z : Z) : Z :=
  match z with
  | Z0 => 0%Z
  | Zpos p | Zneg p => Z.of_nat (Pos.size_nat p)
  end.

(** [nextpow2(n)]: [1 << (n-1).bit_length()]. *)
Definition nextpow2 (n : Z) : Z := Z.shiftl 1 (bit_length (n - 1)).

(** ** float64 values *)

Inductive float64 : Type :=
| Fin (r : R)
| PInf
| NInf
| NaN.

Definition finite (x : float64) : Prop :=
  match x with Fin _ => True | _ => False end.

Inductive sign : Type := Neg | Zero | Pos.

Definition Rsign (r : R) : sign :=
  match total_order_T r 0 with
  | inleft (left _) => Neg
  | inleft (right _) => Zero
  | inright _ => Pos
  end.

Definition fneg (x : float64) : float64 :=
  match x with
  | Fin r => Fin (- r)
  | PInf => NInf
  | NInf => PInf
  | NaN => NaN
  end.

Definition fadd (x y : float64) : float64 :=
  match x, y with
  | NaN, _ | _, NaN => NaN
  | Fin a, Fin b => Fin (a + b)
  | PInf, NInf | NInf, PInf => NaN
  | PInf, _ | _, PInf => PInf
  | NInf, _ | _, NInf => NInf
  end.

Definition fsub (x y : float64) : float64 := fadd x (fneg y).

(** An infinity scaled by a finite factor. *)
Definition scale_inf (positive : bool) (r : R) : float64 :=
  match Rsign r with
  | Zero => NaN
  | Pos => if positive then PInf else NInf
  | Neg => if positive then NInf else PInf
  end.

Definition fmul (x y : float64) : float64 :=
  match x, y with
  | NaN, _ | _, NaN => NaN
  | Fin a, Fin b => Fin (a * b)
  | PInf, Fin b | Fin b, PInf => scale_inf true b
  | NInf, Fin b | Fin b, NInf => scale_inf false b
  | PInf, PInf | NInf, NInf => PInf
  | PInf, NInf | NInf, PInf => NInf
  end.

Definition fdiv (x y : float64) : float64 :=
  match x, y with
  | NaN, _ | _, NaN => NaN
  | Fin a, Fin b =>
      match Rsign b with
      | Zero => scale_inf true a
      | _ => Fin (a / b)
      end
  | Fin _, _ => Fin 0
  | PInf, Fin b => match Rsign b with Neg => NInf | _ => PInf end
  | NInf, Fin b => match Rsign b with Neg => PInf | _ => NInf end
  | _, _ => NaN
  end.

Definition fabs (x : float64) : float64 :=
  match x with
  | Fin r => Fin (Rabs r)
  | PInf | NInf => PInf
  | NaN => NaN
  end.

(** [np.sqrt]: NaN on a negative argument. *)
Definition fsqrt (x : float64) : float64 :=
  match x with
  | Fin r => match Rsign r with Neg => NaN | _ => Fin (sqrt r) end
  | PInf => PInf
  | NInf | NaN => NaN
  end.

(** [10 ** y]. *)
Definition fpow10 (y : float64) : float64 :=
  match y with
  | Fin r => Fin (Rpower 10 r)
  | PInf => PInf
  | NInf => Fin 0
  | NaN => NaN
  end.

(** The least real that rounds to infinity in float64, halfway between
    the largest finite value and [2^1024]. *)
Definition pow_overflow_bound : R := IZR (2 ^ 1024 - 2 ^ 970).

(** [10 ** y] for a Python float [y]: a finite power out of the float64
    range raises [OverflowError] (an underflow does not raise). *)
Definition py_pow10 (y : float64) : result float64 :=
  match y with
  | Fin r =>
      if Rle_dec pow_overflow_bound (Rpower 10 r) then Raise OverflowError
      else Ok (fpow10 y)
  | _ => Ok (fpow10 y)
  end.

(** [x == y]: NaN equals nothing. *)
Definition feqb (x y : float64) : bool :=
  match x, y with
  | Fin a, Fin b => if Req_dec_T a b then true else false
  | PInf, PInf | NInf, NInf => true
  | _, _ => false
  end.

(** [x <= y]: false as soon as one side is NaN. *)
Definition fleb (x y : float64) : bool :=
  match x, y with
  | NaN, _ | _, NaN => false
  | Fin a, Fin b => if Rle_dec a b then true else false
  | NInf, _ | _, PInf => true
  | _, _ => false
  end.

(** The binary step of [np.max]: NaN propagates. *)
Definition fmax (x y : float64) : float64 :=
  match x, y with
  | NaN, _ | _, NaN => NaN
  | Fin a, Fin b => Fin (Rmax a b)
  | PInf, _ | _, PInf => PInf
  | NInf, z | z, NInf => z
  end.

(** ** One-dimensional arrays *)

Definition ndarray : Type := list float64.

Definition of_reals (rs : list R) : ndarray := map Fin rs.

Definition np_zeros_like (x : ndarray) : ndarray := map (fun _ => Fin 0) x.

Definition np_abs (x : ndarray) : ndarray := map fabs x.

(** [np.max] / [np.ma.max] of an unmasked array: a reduction without
    identity, so an empty array raises. *)
Definition np_max (x : ndarray) : result float64 :=
  match x with
  | [] => Raise ValueError
  | v :: x' => Ok (fold_left fmax x' v)
  end.

(** [np.tile(n, reps)] of a one-dimensional array. *)
Definition np_tile {A : Type} (n : list A) (reps : nat) : list A :=
  concat (repeat n reps).

(** [int(np.ceil(a / b))] on two Python lengths: true division raises on
    a zero divisor. *)
Definition ceil_div (a b : nat) : result nat :=
  if (b =? 0)%nat then Raise ZeroDivisionError
  else Ok ((a + b - 1) / b)%nat.

Fixpoint zip_with {A B C : Type} (f : A -> B -> C) (x : list A) (y : list B)
  : list C :=
  match x, y with
  | a :: x', b :: y' => f a b :: zip_with f x' y'
  | _, _ => []
  end.

Definition fsum (x : ndarray) : float64 := fold_left fadd x (Fin 0).

(** [x.dot(y)] of two one-dimensional arrays. *)
Definition dot (x y : ndarray) : result float64 :=
  if (length x =? length y)%nat then Ok (fsum (zip_with fmul x y))
  else Raise ValueError.

(** An elementwise binary operation with NumPy broadcasting of a
    length-one operand; other shape mismatches raise. *)
Definition broadcast {A : Type} (f : A -> A -> A) (x y : list A)
  : result (list A) :=
  if (length x =? length y)%nat then Ok (zip_with f x y)
  else match x, y with
       | [a], _ => Ok (map (f a) y)
       | _, [b] => Ok (map (fun a => f a b) x)
       | _, _ => Raise ValueError
       end.

(** [x + y]. *)
Definition np_add (x y : ndarray) : result ndarray := broadcast fadd x y.

(** [np.linspace(start, stop, num, endpoint)]. *)
Definition linspace (start stop : R) (num : nat) (endpoint : bool) : list R :=
  let div := if endpoint then (num - 1)%nat else num in
  let delta := (stop - start)%R in
  let step := if (div =? 0)%nat then delta else (delta / INR div)%R in
  let y := map (fun k => (INR k * step + start)%R) (seq 0 num) in
  if endpoint && (1 <? num)%nat then removelast y ++ [stop] else y.

(** ** The random source *)

(** The state of [numpy.random]: the draws of [random_sample] still to
    come, each in [0, 1). *)
Definition rng : Type := nat -> R.


(** [rand.random()]. *)
Definition rand_random : M rng R :=
  fun g => Ok (g 0%nat, fun i => g (S i)).

(** [rand.rand(num)]. *)
Definition rand_rand (num : nat) : M rng (list R) :=
  fun g => Ok (map g (seq 0 num), fun i => g (num + i)%nat).

(** ** Additive noise *)

(** [snr == v] for the optional argument [snr]: [None] equals no float. *)
Definition snr_eqb (snr : option float64) (v : float64) : bool :=
  match snr with
  | Some s => feqb s v
  | None => false
  end.

Local Open Scope monad_scope.

(** [additive_noise(x, n, snr)]. *)
Definition additive_noise (x n : ndarray) (snr : option float64)
  : M rng ndarray :=
  if snr_eqb snr PInf then ret (np_zeros_like x)
  else
    let xlen := length x in
    let nlen := length n in
    nn <- (if (nlen <? xlen)%nat
           then reps <- lift (ceil_div xlen nlen) ;;
                ret (firstn xlen (np_tile n reps))
           else ret (firstn xlen n)) ;;
    if snr_eqb snr NInf then ret nn
    else
      snr' <- match snr with
              | None => u <- rand_random ;;
                        ret (fmul (fsub (Fin u) (Fin (1/4))) (Fin 20))
              | Some s => ret s
              end ;;
      xe <- lift (dot x x) ;;
      ne <- lift (dot nn nn) ;;
      p <- lift (py_pow10 (fdiv snr' (Fin 10))) ;;
      let nscale := fsqrt (fdiv (fdiv xe p) ne) in
      ret (map (fmul nscale) nn).

(** [add_noise(x, n, snr)]. *)
Definition add_noise (x n : ndarray) (snr : option float64) : M rng ndarray :=
  noise <- additive_noise x n snr ;;
  if snr_eqb snr NInf then ret noise
  else lift (np_add x noise).

(** ** Peak normalization *)

(** [normalize(x)]: [x / np.max(np.abs(x))]. *)
Definition normalize (x : ndarray) : result ndarray :=
  rbind (np_max (np_abs x)) (fun m => Ok (map (fun v => fdiv v m) x)).

(** ** Segment sampling *)

(** [np.around] on a real: round to the nearest integer, ties to even. *)
Definition round_half_even (r : R) : Z :=
  let f := Int_part r in
  let d := (r - IZR f)%R in
  if Rlt_dec d (1/2) then f
  else if Rlt_dec (1/2) d then (f + 1)%Z
  else if Z.even f then f else (f + 1)%Z.

Definition np_around (r : R) : R := IZR (round_half_even r).

(** [int(r)] on a float: truncation toward zero. *)
Definition py_int (r : R) : Z :=
  if Rle_dec 0 r then Int_part r else (- Int_part (- r))%Z.

(** A slice bound, as Python clamps it against the length. *)
Definition slice_bound (len : nat) (i : Z) : nat :=
  if (i <? 0)%Z then Z.to_nat (Z.max 0 (i + Z.of_nat len))
  else Nat.min (Z.to_nat i) len.

(** [x[a:b]]. *)
Definition py_slice {A : Type} (x : list A) (a b : Z) : list A :=
  let a' := slice_bound (length x) a in
  let b' := slice_bound (length x) b in
  firstn (b' - a') (skipn a' x).

(** [sample(x, length, num)]; the [verbose] printing has no effect on
    the result and is left out. *)
Definition sample {A : Type} (x : list A) (length num : nat)
  : M rng (list (list A)) :=
  if (List.length x <? length)%nat then raise AssertionError
  else
    let start_idx_max := (List.length x - length)%nat in
    us <- rand_rand num ;;
    let start_idx := map (fun u => np_around (u * INR start_idx_max)) us in
    ret (fold_left
           (fun segs i =>
              segs ++ [py_slice x (py_int i) (py_int i + Z.of_nat length)])
           start_idx []).

(** ** Frequency responses *)

Definition complex : Type := (float64 * float64)%type.

Definition czero : complex := (Fin 0, Fin 0).

(** A real scalar stored into a complex array. *)
Definition of_real (x : float64) : complex := (x, Fin 0).

Definition cadd (a b : complex) : complex :=
  (fadd (fst a) (fst b), fadd (snd a) (snd b)).

Definition cmul (a b : complex) : complex :=
  (fsub (fmul (fst a) (fst b)) (fmul (snd a) (snd b)),
   fadd (fmul (fst a) (snd b)) (fmul (snd a) (fst b))).

(** [1 / z]. *)
Definition cinv (z : complex) : complex :=
  let d := fadd (fmul (fst z) (fst z)) (fmul (snd z) (snd z)) in
  (fdiv (fst z) d, fdiv (fneg (snd z)) d).

(** [z == 0]. *)
Definition ceqb0 (z : complex) : bool :=
  feqb (fst z) (Fin 0) && feqb (snd z) (Fin 0).

Definition csum (l : list complex) : complex := fold_left cadd l czero.

(** The input of [fft(h, n)] is cropped or padded with zeros to [n]. *)
Definition resize (h : ndarray) (n : nat) : ndarray :=
  firstn n h ++ repeat (Fin 0) (n - length h).

(** [exp(-2 pi i k m / n)]. *)
Definition twiddle (n k m : nat) : complex :=
  let theta := (2 * PI * INR k * INR m / INR n)%R in
  (Fin (cos theta), Fin (- sin theta)).

(** Bin [k] of the [n]-point discrete Fourier transform of [h]. *)
Definition dft_bin (h : ndarray) (n k : nat) : complex :=
  csum (zip_with (fun m v => cmul (of_real v) (twiddle n k m))
          (seq 0 (length h)) h).

(** [numpy.fft.fft(h, n=n)]: fewer than one point is refused. *)
Definition fft (h : ndarray) (n : nat) : result (list complex) :=
  if (n <? 1)%nat then Raise ValueError
  else Ok (map (dft_bin (resize h n) n) (seq 0 n)).

(** [firfreqz(h, nfft)]. *)
Definition firfreqz (h : ndarray) (nfft : nat)
  : result (list R * list complex) :=
  let ww := linspace 0 2 nfft false in
  rbind (fft h nfft) (fun hh => Ok (ww, hh)).

Definition count_true (mask : list bool) : nat :=
  length (filter (fun b : bool => b) mask).

(** The element-by-element copy behind [a[mask] = v]: the next value of
    [v] goes to the next position where the mask is true; with [bcast]
    the single value of [v] is reused. *)
Fixpoint put_mask {A : Type} (a : list A) (mask : list bool) (v : list A)
  (bcast : bool) : list A :=
  match a, mask with
  | x :: a', true :: mask' =>
      match v with
      | y :: v' => y :: put_mask a' mask' (if bcast then v else v') bcast
      | [] => x :: put_mask a' mask' v bcast
      end
  | x :: a', false :: mask' => x :: put_mask a' mask' v bcast
  | _, _ => a
  end.

(** [a[mask] = v] for an array [v]: unless [v] has length one, NumPy
    refuses a [v] whose length is not the number of true positions. *)
Definition setitem_mask {A : Type} (a : list A) (mask : list bool)
  (v : list A) : result (list A) :=
  if (length v =? 1)%nat then Ok (put_mask a mask v true)
  else if (length v =? count_true mask)%nat then Ok (put_mask a mask v false)
  else Raise ValueError.

(** [a[mask] = c] for a scalar [c]. *)
Definition setitem_mask_scalar {A : Type} (a : list A) (mask : list bool)
  (c : A) : list A :=
  zip_with (fun x (b : bool) => if b then c else x) a mask.

Definition FREQZ_CEILING : float64 := Fin 100000.

(** [iirfreqz(h, nfft, ceiling)]. *)
Definition iirfreqz (h : ndarray) (nfft : nat) (ceiling : float64)
  : result (list R * list complex) :=
  let ww := linspace 0 2 nfft false in
  rbind (fft h nfft) (fun hh_inv =>
  let hh := map (fun _ => czero) hh_inv in
  let zeros := map ceqb0 hh_inv in
  rbind (setitem_mask hh (map negb zeros) (map cinv hh_inv)) (fun hh =>
  let hh := setitem_mask_scalar hh zeros (of_real ceiling) in
  Ok (ww, hh))).

(** [freqz(numerator, demonimator, nfft, ceiling)]. *)
Definition freqz (numerator demonimator : ndarray) (nfft : nat)
  (ceiling : float64) : result (list R * list complex) :=
  rbind (firfreqz numerator nfft) (fun '(ww, hh_numer) =>
  rbind (iirfreqz demonimator nfft ceiling) (fun '(_, hh_denom) =>
  rbind (broadcast cmul hh_numer hh_denom) (fun hh =>
  Ok (ww, hh)))).

(** ** Quantization *)

(** The arrays a caller can see: [quantize] writes into its argument, so
    the argument is a reference into this store. *)
Definition ref : Type := nat.
Definition heap : Type := ref -> ndarray.

Definition load (x : ref) : M heap ndarray := fun h => Ok (h x, h).

Definition store (x : ref) (a : ndarray) : M heap unit :=
  fun h => Ok (tt, fun y => if (y =? x)%nat then a else h y).

(** One element of [np.digitize(x, bins)] for increasing [bins]: the
    number of bin edges not above the value, a NaN sorting last. *)
Definition digitize1 (bins : ndarray) (v : float64) : nat :=
  match v with
  | NaN => length bins
  | _ => length (filter (fun b => fleb b v) bins)
  end.

Definition np_digitize (x bins : ndarray) : list Z :=
  map (fun v => Z.of_nat (digitize1 bins v)) x.

(** [a[i]] for a Python integer: negative indices count from the end. *)
Definition getitem {A : Type} (a : list A) (i : Z) : result A :=
  let len := Z.of_nat (length a) in
  if ((i <? - len) || (len <=? i))%Z then Raise IndexError
  else match nth_error a (Z.to_nat (if (i <? 0)%Z then i + len else i)) with
       | Some v => Ok v
       | None => Raise IndexError
       end.

(** [a[idx]] for an integer index array. *)
Fixpoint take {A : Type} (a : list A) (idx : list Z) : result (list A) :=
  match idx with
  | [] => Ok []
  | i :: idx' =>
      rbind (getitem a i) (fun v =>
      rbind (take a idx') (fun vs => Ok (v :: vs)))
  end.

(** [a[-1] = v]. *)
Definition setitem_last {A : Type} (a : list A) (v : A) : result (list A) :=
  match a with
  | [] => Raise IndexError
  | _ => Ok (removelast a ++ [v])
  end.

(** [quantize(x, n)]: [x /= ...] divides the caller's array in place. *)
Definition quantize (x : ref) (n : nat) : M heap ndarray :=
  xs <- load x ;;
  m <- lift (np_max (np_abs xs)) ;;
  store x (map (fun v => fdiv v m) xs) ;;;
  let bins := of_reals (linspace (-1) 1 (2 ^ n + 1) true) in
  let qvals :=
    map (fun s => fdiv s (Fin 2)) (zip_with fadd (removelast bins) (tl bins)) in
  bins <- lift (setitem_last bins (Fin (101 / 100))) ;;
  xs <- load x ;;
  lift (take qvals (map (fun i => (i - 1)%Z) (np_digitize xs bins))).

(** ** Paired segments, white noise, dithering and pre-emphasis *)


(** [rand.normal(0, 1, shape)] and [np.random.randn] for a
    one-dimensional shape: the next [num] values of the source, which
    for these draws are standard-normal deviates, any real numbers. *)
Definition rand_normal (num : nat) : M rng (list R) :=
  fun g => Ok (map g (seq 0 num), fun i => g (num + i)%nat).

(** [dither(sig, scale)]. *)
Definition dither (sig : ndarray) (scale : float64) : M rng ndarray :=
  n <- rand_normal (length sig) ;;
  lift (np_add sig (map (fun v => fmul v scale) (of_reals n))).

(** [add_white_noise(x, snr)]. *)
Definition add_white_noise (x : ndarray) (snr : option float64)
  : M rng ndarray :=
  n <- rand_normal (length x) ;;
  add_noise x (of_reals n) snr.

(** [white_noise(x, snr)]. *)
Definition white_noise (x : ndarray) (snr : option float64) : M rng ndarray :=
  n <- rand_normal (length x) ;;
  let n := of_reals n in
  snr' <- match snr with
          | None => u <- rand_random ;;
                    ret (fmul (fsub (Fin u) (Fin (1/4))) (Fin 20))
          | Some s => ret s
          end ;;
  xe <- lift (dot x x) ;;
  ne <- lift (dot n n) ;;
  p <- lift (py_pow10 (fdiv snr' (Fin 10))) ;;
  let nscale := fsqrt (fdiv (fdiv xe p) ne) in
  ret (map (fmul nscale) n).

(** [add_white_noise_rand(x)]: the argument is evaluated, and the SNR
    drawn, before [add_white_noise] draws the noise. *)
Definition add_white_noise_rand (x : ndarray) : M rng ndarray :=
  u <- rand_random ;;
  add_white_noise x (Some (fmul (fsub (Fin u) (Fin (1/4))) (Fin 20))).

(** [scipy.signal.lfilter(b, 1, x)] for a one-dimensional [x]: with the
    scalar denominator, [b] is divided by it and convolved with [x], the
    result cut to the length of [x]; [np.convolve] refuses an empty
    signal. *)
Definition lfilter_fir (b : ndarray) (x : ndarray) : result ndarray :=
  match x with
  | [] => Raise ValueError
  | _ =>
      let b := map (fun c => fdiv c (Fin 1)) b in
      Ok (map (fun n =>
                 fsum (map (fun k => fmul (nth k b (Fin 0))
                                       (nth (n - k) x (Fin 0)))
                         (seq 0 (Nat.min (length b) (S n)))))
            (seq 0 (length x)))
  end.

(** [pre_emphasis(sig, alpha)]. *)
Definition pre_emphasis (sig : ndarray) (alpha : float64) : result ndarray :=
  lfilter_fir [Fin 1; fneg alpha] sig.

(** ** Notions of the specification *)

(** A sequence repeated periodically over [len] samples. *)
Definition periodic {A : Type} (d : A) (n : list A) (len : nat) : list A :=
  map (fun i => nth (i mod length n) n d) (seq 0 len).

(** The length adjustment of the noise as the specification words it:
    tiled and truncated when the signal is longer, truncated otherwise. *)
Definition length_adjusted {A : Type} (d : A) (n : list A) (len : nat)
  : list A :=
  if (length n <? len)%nat then periodic d n len else firstn len n.

(** The SNR, given or to be drawn, for which [10 ** (snr / 10)] stays
    within the float64 range: a sentinel, NaN, or a finite value below
    about 3082.5 dB. *)
Definition snr_in_range (snr : option float64) (g : rng) : Prop :=
  match snr with
  | Some (Fin r) => (Rpower 10 (r / 10) < pow_overflow_bound)%R
  | Some _ => True
  | None => (Rpower 10 ((g 0%nat - 1 / 4) * 20 / 10) < pow_overflow_bound)%R
  end.


(** The same sum on float64 samples, as [x.dot(x)] accumulates it. *)
Definition fenergy (x : ndarray) : float64 := fsum (zip_with fmul x x).

(** The peak of a real-valued signal: its largest absolute sample. *)
Definition peak (rs : list R) : R := fold_right Rmax 0%R (map Rabs rs).

(** Edge [k] of the [N] equal-width bins that partition [-1, 1]. *)
Definition bin_edge (N k : nat) : R := (INR k * ((1 - -1) / INR N) + -1)%R.

(** The midpoints of the [N] equal-width bins that partition [-1, 1]. *)
Definition levels (N : nat) : list R :=
  map (fun k => (-1 + (2 * INR k + 1) / INR N)%R) (seq 0 N).

(** The [2 ^ n] quantization levels of an [n]-bit quantizer. *)
Definition qlevels (n : nat) : list R := levels (2 ^ n).

(** The bin edges once the uppermost one is moved to 1.01. *)
Definition nudged_bins (N : nat) : ndarray :=
  of_reals (map (bin_edge N) (seq 0 N) ++ [(101 / 100)%R]).

(** The level a normalized sample is mapped to. *)
Definition level_of (N : nat) (y : R) : R :=
  nth (digitize1 (nudged_bins N) (Fin y) - 1) (levels N) 0%R.

(** ** nextpow2 *)

Lemma size_nat_bounds (p : positive) :
  (2 ^ (Z.of_nat (Pos.size_nat p) - 1) <= Zpos p < 2 ^ Z.of_nat (Pos.size_nat p))%Z.
Proof.
  induction p as [p IH | p IH | ]; cbn [Pos.size_nat].
  - replace (Z.of_nat (S (Pos.size_nat p)) - 1)%Z with (Z.of_nat (Pos.size_nat p)) by lia.
    rewrite Nat2Z.inj_succ, Z.pow_succ_r by lia.
    assert (Hs : (1 <= Z.of_nat (Pos.size_nat p))%Z) by (destruct p; cbn [Pos.size_nat]; lia).
    replace (Z.of_nat (Pos.size_nat p)) with (Z.succ (Z.of_nat (Pos.size_nat p) - 1)) at 1 by lia.
    rewrite Z.pow_succ_r by lia. lia.
  - replace (Z.of_nat (S (Pos.size_nat p)) - 1)%Z with (Z.of_nat (Pos.size_nat p)) by lia.
    rewrite Nat2Z.inj_succ, Z.pow_succ_r by lia.
    assert (Hs : (1 <= Z.of_nat (Pos.size_nat p))%Z) by (destruct p; cbn [Pos.size_nat]; lia).
    replace (Z.of_nat (Pos.size_nat p)) with (Z.succ (Z.of_nat (Pos.size_nat p) - 1)) at 1 by lia.
    rewrite Z.pow_succ_r by lia. lia.
  - cbn. lia.
Qed.

Lemma bit_length_nonneg (z : Z) : (0 <= bit_length z)%Z.
Proof. destruct z; cbn; lia. Qed.

Lemma nextpow2_pow (n : Z) : nextpow2 n = (2 ^ bit_length (n - 1))%Z.
Proof.
  unfold nextpow2. rewrite Z.shiftl_mul_pow2 by apply bit_length_nonneg. lia.
Qed.

Lemma nextpow2_lower (n : Z) : (1 <= n -> n <= nextpow2 n)%Z.
Proof.
  intros Hn. rewrite nextpow2_pow.
  destruct (n - 1)%Z as [ | p | p] eqn:E; try lia.
  - cbn. lia.
  - pose proof (size_nat_bounds p) as [_ Hu]. cbn [bit_length]. lia.
Qed.

Lemma nextpow2_least (n j : Z) :
  (1 <= n -> 0 <= j -> n <= 2 ^ j -> nextpow2 n <= 2 ^ j)%Z.
Proof.
  intros Hn Hj Hle. rewrite nextpow2_pow.
  destruct (n - 1)%Z as [ | p | p] eqn:E; try lia.
  - cbn [bit_length]. rewrite Z.pow_0_r. lia.
  - pose proof (size_nat_bounds p) as [Hl _]. cbn [bit_length].
    apply Z.pow_le_mono_r; [lia | ].
    destruct (Z_lt_le_dec j (Z.of_nat (Pos.size_nat p))) as [Hlt | ]; [ | assumption].
    exfalso.
    assert (2 ^ j <= 2 ^ (Z.of_nat (Pos.size_nat p) - 1))%Z
      by (apply Z.pow_le_mono_r; lia).
    lia.
Qed.

(** C8. For every positive integer [n], [nextpow2 n] is a power of two,
    is at least [n], is no larger than any power of two that is at least
    [n], and equals [n] when [n] is itself a power of two; in particular
    [nextpow2 5 = 8] and [nextpow2 8 = 8]. *)
Theorem nextpow2_smallest_power_of_two (n : Z) (Hn : (1 <= n)%Z) :
  (exists k, 0 <= k /\ nextpow2 n = 2 ^ k)%Z /\
  (n <= nextpow2 n)%Z /\
  (forall j, 0 <= j -> n <= 2 ^ j -> nextpow2 n <= 2 ^ j)%Z /\
  (forall j, 0 <= j -> n = 2 ^ j -> nextpow2 n = n)%Z /\
  nextpow2 5 = 8%Z /\ nextpow2 8 = 8%Z.
Proof.
  split; [ | split; [ | split; [ | split; [ | split]]]].
  - exists (bit_length (n - 1)). split; [apply bit_length_nonneg | apply nextpow2_pow].
  - now apply nextpow2_lower.
  - intros j Hj Hle. now apply nextpow2_least.
  - intros j Hj Heq.
    pose proof (nextpow2_lower Hn).
    pose proof (@nextpow2_least n j Hn Hj). lia.
  - reflexivity.
  - reflexivity.
Qed.

Lemma nextpow2_smallest_power_of_two_witness :
  (1 <= 5)%Z /\ (5 <= nextpow2 5)%Z.
Proof.
  split; [lia | ].
  exact (proj1 (proj2 (@nextpow2_smallest_power_of_two 5 ltac:(lia)))).
Defined.

(** ** Elementary facts on float64 *)

Lemma Rsign_pos (r : R) : (0 < r)%R -> Rsign r = Pos.
Proof.
  intros H. unfold Rsign. destruct (total_order_T r 0) as [[Hlt | Heq] | Hgt]; trivial; lra.
Qed.

Lemma Rsign_neg (r : R) : (r < 0)%R -> Rsign r = Neg.
Proof.
  intros H. unfold Rsign. destruct (total_order_T r 0) as [[Hlt | Heq] | Hgt]; trivial; lra.
Qed.

Lemma Rsign_zero : Rsign 0 = Zero.
Proof.
  unfold Rsign. destruct (total_order_T 0 0) as [[Hlt | Heq] | Hgt]; trivial; lra.
Qed.

Lemma Rsign_nonzero (r : R) : r <> 0%R -> Rsign r <> Zero.
Proof.
  intros H. unfold Rsign. destruct (total_order_T r 0) as [[Hlt | Heq] | Hgt]; congruence.
Qed.

Lemma fdiv_fin (a b : R) : b <> 0%R -> fdiv (Fin a) (Fin b) = Fin (a / b).
Proof.
  intros H. unfold fdiv. pose proof (Rsign_nonzero H). destruct (Rsign b); congruence.
Qed.


Lemma feqb_fin_true (a b : R) : a = b -> feqb (Fin a) (Fin b) = true.
Proof. intros H. cbn. destruct (Req_dec_T a b); congruence. Qed.

Lemma feqb_fin_false (a b : R) : a <> b -> feqb (Fin a) (Fin b) = false.
Proof. intros H. cbn. destruct (Req_dec_T a b); congruence. Qed.

Lemma fleb_fin_true (a b : R) : (a <= b)%R -> fleb (Fin a) (Fin b) = true.
Proof. intros H. cbn. destruct (Rle_dec a b); tauto. Qed.

Lemma fleb_fin_false (a b : R) : (b < a)%R -> fleb (Fin a) (Fin b) = false.
Proof. intros H. cbn. destruct (Rle_dec a b); trivial; lra. Qed.

Lemma fadd_zero_r (x : float64) : fadd x (Fin 0) = x.
Proof. destruct x; cbn; trivial. now rewrite Rplus_0_r. Qed.

(** ** Lists: tiling and truncation *)

Lemma zip_with_length {A B C : Type} (f : A -> B -> C) (x : list A) (y : list B) :
  length (zip_with f x y) = Nat.min (length x) (length y).
Proof.
  revert y. induction x as [ | a x IH]; intros [ | b y]; cbn; trivial.
  now rewrite IH.
Qed.

Lemma zip_with_zeros (x : ndarray) : zip_with fadd x (np_zeros_like x) = x.
Proof.
  induction x as [ | v x IH]; cbn; trivial.
  rewrite fadd_zero_r. f_equal. exact IH.
Qed.

Lemma np_tile_length {A : Type} (n : list A) (reps : nat) :
  length (np_tile n reps) = (reps * length n)%nat.
Proof.
  unfold np_tile. induction reps as [ | reps IH]; cbn; trivial.
  now rewrite length_app, IH.
Qed.

Lemma np_tile_nth {A : Type} (d : A) (n : list A) (reps i : nat) :
  (i < reps * length n)%nat ->
  nth i (np_tile n reps) d = nth (i mod length n) n d.
Proof.
  unfold np_tile. revert i. induction reps as [ | reps IH]; intros i Hi; cbn in *; [lia | ].
  assert (Hn : length n <> 0%nat) by (destruct n; cbn in *; [lia | discriminate]).
  destruct (Nat.lt_ge_cases i (length n)) as [Hlt | Hge].
  - rewrite app_nth1 by assumption. now rewrite Nat.mod_small.
  - rewrite app_nth2 by assumption. rewrite IH by lia.
    f_equal.
    replace i with ((i - length n) + 1 * length n)%nat at 2 by lia.
    now rewrite Nat.Div0.mod_add.
Qed.

Lemma ceil_div_covers (a b : nat) :
  b <> 0%nat -> (a <= (a + b - 1) / b * b)%nat.
Proof.
  intros Hb.
  pose proof (Nat.div_mod_eq (a + b - 1) b) as E.
  pose proof (Nat.mod_upper_bound (a + b - 1) b Hb). nia.
Qed.

Lemma periodic_nth {A : Type} (d : A) (n : list A) (len i : nat) :
  (i < len)%nat ->
  nth i (periodic d n len) d = nth (i mod length n) n d.
Proof.
  intros Hi. unfold periodic.
  set (f := fun i => nth (i mod length n) n d).
  rewrite (nth_indep (map f (seq 0 len)) d (f 0%nat))
    by (rewrite length_map, length_seq; assumption).
  rewrite (map_nth f). now rewrite seq_nth by assumption.
Qed.

Lemma tile_truncate_periodic {A : Type} (d : A) (n : list A) (len reps : nat) :
  (len <= reps * length n)%nat ->
  firstn len (np_tile n reps) = periodic d n len.
Proof.
  intros Hle.
  apply nth_ext with (d := d) (d' := d).
  - unfold periodic.
    rewrite length_firstn, np_tile_length, length_map, length_seq. lia.
  - intros i Hi. rewrite length_firstn, np_tile_length in Hi.
    rewrite nth_firstn.
    destruct (Nat.ltb_spec i len) as [Hlt | Hge]; [ | lia].
    rewrite np_tile_nth by lia.
    now rewrite periodic_nth by assumption.
Qed.

Lemma length_adjusted_length {A : Type} (d : A) (n : list A) (len : nat) :
  n <> [] -> length (length_adjusted d n len) = len.
Proof.
  intros Hn. unfold length_adjusted, periodic.
  destruct (Nat.ltb_spec (length n) len) as [Hlt | Hge].
  - now rewrite length_map, length_seq.
  - rewrite length_firstn. lia.
Qed.

(** The noise as [additive_noise] adjusts it to the length of the signal. *)
Lemma adjust_noise (x n : ndarray) (g : rng) :
  n <> [] ->
  (if (length n <? length x)%nat
   then bind (lift (ceil_div (length x) (length n)))
          (fun reps => ret (firstn (length x) (np_tile n reps)))
   else ret (firstn (length x) n)) g
  = Ok (length_adjusted (Fin 0) n (length x), g).
Proof.
  intros Hn. unfold length_adjusted.
  assert (Hl : length n <> 0%nat) by (destruct n; [congruence | discriminate]).
  destruct (Nat.ltb_spec (length n) (length x)) as [Hlt | Hge]; [ | reflexivity].
  unfold bind, lift, ceil_div, ret.
  destruct (Nat.eqb_spec (length n) 0) as [E | _]; [contradiction | ].
  now rewrite (tile_truncate_periodic (Fin 0))
    by (apply ceil_div_covers; assumption).
Qed.

(** ** add_noise at the two sentinels *)

(** C5. For every signal [s] and every noise [n], [add_noise] at SNR
    [+inf] returns [s] itself, and the additive term is the all-zero
    array shaped like [s], produced before any length adjustment or
    scaling of the noise (so also for an empty noise); the random source
    is untouched. *)
Theorem add_noise_noiseless (s n : ndarray) (g : rng) :
  additive_noise s n (Some PInf) g = Ok (np_zeros_like s, g) /\
  add_noise s n (Some PInf) g = Ok (s, g).
Proof.
  assert (Ha : additive_noise s n (Some PInf) g = Ok (np_zeros_like s, g))
    by reflexivity.
  split; [exact Ha | ].
  unfold add_noise, bind. rewrite Ha. cbn [snr_eqb feqb].
  unfold lift, np_add, broadcast.
  replace (length (np_zeros_like s)) with (length s)
    by (unfold np_zeros_like; now rewrite length_map).
  now rewrite Nat.eqb_refl, zip_with_zeros.
Qed.

(** C3. For every non-empty signal [s] and non-empty noise [n],
    [add_noise] at SNR [-inf] returns the length-adjusted noise and
    nothing of the signal: [n] repeated periodically over [len s]
    samples when [s] is longer than [n], the first [len s] samples of
    [n] otherwise; the result is the same for any other signal of the
    same length. *)
Theorem add_noise_noise_only (s n : ndarray) (g : rng)
  (Hs : s <> []) (Hn : n <> []) :
  add_noise s n (Some NInf) g
  = Ok (length_adjusted (Fin 0) n (length s), g) /\
  length (length_adjusted (Fin 0) n (length s)) = length s /\
  (forall i, (i < length s)%nat ->
     nth i (length_adjusted (Fin 0) n (length s)) (Fin 0)
     = nth (i mod length n) n (Fin 0)) /\
  (forall s' : ndarray, length s' = length s ->
     add_noise s' n (Some NInf) g = add_noise s n (Some NInf) g).
Proof.
  assert (Hrun : forall x : ndarray,
             add_noise x n (Some NInf) g
             = Ok (length_adjusted (Fin 0) n (length x), g)).
  { intros x. unfold add_noise, additive_noise.
    cbn [snr_eqb feqb]. unfold bind at 1 2.
    rewrite (adjust_noise x g Hn). reflexivity. }
  split; [apply Hrun | ].
  split; [now apply length_adjusted_length | ].
  split.
  - intros i Hi. unfold length_adjusted.
    destruct (Nat.ltb_spec (length n) (length s)) as [Hlt | Hge].
    + now apply periodic_nth.
    + rewrite nth_firstn.
      destruct (Nat.ltb_spec i (length s)) as [_ | ?]; [ | lia].
      now rewrite Nat.mod_small by lia.
  - intros s' Hlen. now rewrite !Hrun, Hlen.
Qed.

Lemma add_noise_noise_only_witness :
  add_noise [Fin 1; Fin 2; Fin 3] [Fin 7; Fin 8] (Some NInf) (fun _ => 0%R)
  = Ok (length_adjusted (Fin 0) [Fin 7; Fin 8] 3, fun _ => 0%R).
Proof.
  refine (proj1 (@add_noise_noise_only [Fin 1; Fin 2; Fin 3] [Fin 7; Fin 8]
                   (fun _ => 0%R) _ _)); discriminate.
Defined.

(** ** Energies and the scaled noise *)








Lemma dot_self (x : ndarray) : dot x x = Ok (fenergy x).
Proof. unfold dot. now rewrite Nat.eqb_refl. Qed.





(** ** The power [10 ** (snr / 10)] and its overflow *)

Lemma pow10_300 : Rpower 10 300 = IZR (10 ^ 300).
Proof.
  replace 300%R with (INR 300) by (rewrite INR_IZR_INZ; reflexivity).
  rewrite Rpower_pow by lra. rewrite pow_IZR. reflexivity.
Qed.

Lemma pow10_400 : Rpower 10 400 = IZR (10 ^ 400).
Proof.
  replace 400%R with (INR 400) by (rewrite INR_IZR_INZ; reflexivity).
  rewrite Rpower_pow by lra. rewrite pow_IZR. reflexivity.
Qed.

(** Up to [10^300] the power is within the float64 range. *)
Lemma pow10_in_range (y : R) :
  (y <= 300)%R -> (Rpower 10 y < pow_overflow_bound)%R.
Proof.
  intros Hy. apply Rle_lt_trans with (Rpower 10 300).
  - apply Rle_Rpower; lra.
  - rewrite pow10_300. unfold pow_overflow_bound. apply IZR_lt.
    apply Z.ltb_lt. vm_compute. reflexivity.
Qed.

(** From [10^400] on it is not. *)
Lemma pow10_out_of_range (y : R) :
  (400 <= y)%R -> (pow_overflow_bound <= Rpower 10 y)%R.
Proof.
  intros Hy. apply Rle_trans with (Rpower 10 400).
  - rewrite pow10_400. unfold pow_overflow_bound. apply IZR_le.
    apply Z.leb_le. vm_compute. reflexivity.
  - apply Rle_Rpower; lra.
Qed.

Lemma py_pow10_in_range (r : R) :
  (Rpower 10 (r / 10) < pow_overflow_bound)%R ->
  py_pow10 (fdiv (Fin r) (Fin 10)) = Ok (fpow10 (fdiv (Fin r) (Fin 10))).
Proof.
  intros Hr. rewrite fdiv_fin by lra. unfold py_pow10.
  destruct (Rle_dec pow_overflow_bound (Rpower 10 (r / 10))); [lra | reflexivity].
Qed.

Lemma py_pow10_overflow (r : R) :
  (pow_overflow_bound <= Rpower 10 (r / 10))%R ->
  py_pow10 (fdiv (Fin r) (Fin 10)) = Raise OverflowError.
Proof.
  intros Hr. rewrite fdiv_fin by lra. unfold py_pow10.
  destruct (Rle_dec pow_overflow_bound (Rpower 10 (r / 10))); [reflexivity | lra].
Qed.

Lemma py_pow10_special (s : float64) :
  ~ finite s -> py_pow10 (fdiv s (Fin 10)) = Ok (fpow10 (fdiv s (Fin 10))).
Proof.
  intros Hs. destruct s as [r | | | ]; cbn in Hs; [tauto | | | reflexivity];
    unfold fdiv; rewrite Rsign_pos by lra; reflexivity.
Qed.


(** [additive_noise] at a finite SNR whose power overflows. *)
Lemma additive_noise_overflow (x n : ndarray) (r : R) (g : rng) :
  n <> [] ->
  (pow_overflow_bound <= Rpower 10 (r / 10))%R ->
  additive_noise x n (Some (Fin r)) g = Raise OverflowError.
Proof.
  intros Hn Hr. unfold additive_noise.
  cbn [snr_eqb feqb]. unfold bind at 1.
  rewrite (adjust_noise x g Hn).
  unfold bind, ret, lift. now rewrite !dot_self, py_pow10_overflow.
Qed.




(** ** Peak normalization *)

Lemma fold_left_fmax_of_reals (l : list R) (a : R) :
  fold_left fmax (of_reals l) (Fin a) = Fin (fold_left Rmax l a).
Proof.
  revert a. induction l as [ | v l IH]; intros a; cbn;
    [reflexivity | apply IH].
Qed.

Lemma fold_right_Rmax_nonneg (l : list R) : (0 <= fold_right Rmax 0%R l)%R.
Proof.
  induction l as [ | v l IH]; cbn; [lra | ].
  eapply Rle_trans; [exact IH | apply Rmax_r].
Qed.

Lemma fold_left_Rmax_right (l : list R) (a : R) :
  (0 <= a)%R -> fold_left Rmax l a = Rmax a (fold_right Rmax 0%R l).
Proof.
  revert a. induction l as [ | v l IH]; intros a Ha; cbn.
  - now rewrite Rmax_left.
  - rewrite IH by (eapply Rle_trans; [exact Ha | apply Rmax_l]).
    now rewrite Rmax_assoc.
Qed.

Lemma peak_nonneg (rs : list R) : (0 <= peak rs)%R.
Proof. apply fold_right_Rmax_nonneg. Qed.

Lemma np_abs_of_reals (rs : list R) :
  np_abs (of_reals rs) = of_reals (map Rabs rs).
Proof. unfold np_abs, of_reals. now rewrite !map_map. Qed.

Lemma np_max_abs_of_reals (rs : list R) :
  rs <> [] -> np_max (np_abs (of_reals rs)) = Ok (Fin (peak rs)).
Proof.
  intros Hne. rewrite np_abs_of_reals.
  destruct rs as [ | v rs]; [congruence | ].
  cbn [map of_reals np_max]. fold (of_reals (map Rabs rs)).
  rewrite fold_left_fmax_of_reals, fold_left_Rmax_right by apply Rabs_pos.
  reflexivity.
Qed.

Lemma peak_scaled (m : R) (rs : list R) :
  (0 < m)%R -> peak (map (fun v => v / m)%R rs) = (peak rs / m)%R.
Proof.
  intros Hm. unfold peak.
  assert (Hi : (0 <= / m)%R) by (left; now apply Rinv_0_lt_compat).
  induction rs as [ | v rs IH]; cbn [map fold_right].
  - lra.
  - rewrite IH. unfold Rdiv.
    rewrite Rabs_mult, (Rabs_right (/ m)) by lra.
    rewrite (Rmult_comm (Rabs v)), (Rmult_comm (fold_right _ _ _)).
    rewrite RmaxRmult by assumption. apply Rmult_comm.
Qed.

Lemma normalize_of_reals (rs : list R) :
  rs <> [] -> peak rs <> 0%R ->
  normalize (of_reals rs) = Ok (of_reals (map (fun v => v / peak rs)%R rs)).
Proof.
  intros Hne Hpk. unfold normalize.
  rewrite np_max_abs_of_reals by assumption. cbn [rbind].
  unfold of_reals. rewrite !map_map.
  apply f_equal, map_ext. intros v. now apply fdiv_fin.
Qed.

(** C10. For every non-empty real-valued signal [rs] whose peak is not
    zero, [normalize] returns the samples divided by the peak, the
    maximum absolute value of the result is exactly 1, and normalizing
    the result again returns it unchanged. *)
Theorem normalize_idempotent (rs : list R)
  (Hne : rs <> []) (Hpk : peak rs <> 0%R) :
  let ys := map (fun v => v / peak rs)%R rs in
  normalize (of_reals rs) = Ok (of_reals ys) /\
  np_max (np_abs (of_reals ys)) = Ok (Fin 1%R) /\
  rbind (normalize (of_reals rs)) normalize = normalize (of_reals rs).
Proof.
  intros ys.
  pose proof (peak_nonneg rs) as H0.
  assert (Hpos : (0 < peak rs)%R) by lra.
  assert (Hys : ys <> []) by (destruct rs; [congruence | discriminate]).
  assert (Hone : peak ys = 1%R).
  { unfold ys. rewrite peak_scaled by assumption. now field. }
  assert (Hrun : normalize (of_reals rs) = Ok (of_reals ys))
    by now apply normalize_of_reals.
  split; [exact Hrun | ]. split.
  - rewrite np_max_abs_of_reals by assumption. now rewrite Hone.
  - rewrite Hrun. cbn [rbind].
    rewrite normalize_of_reals by (trivial; rewrite Hone; lra).
    f_equal. f_equal. rewrite Hone.
    rewrite <- (map_id ys) at 2. apply map_ext. intros v. field.
Qed.

Lemma normalize_idempotent_witness :
  rbind (normalize (of_reals [3; -6]%R)) normalize
  = normalize (of_reals [3; -6]%R).
Proof.
  refine (proj2 (proj2 (@normalize_idempotent [3; -6]%R _ _))).
  - discriminate.
  - unfold peak. cbn [map fold_right].
    rewrite (Rabs_right 3), (Rabs_left (-6)) by lra.
    rewrite (Rmax_left _ 0), Rmax_right by lra. lra.
Defined.

(** ** Segment sampling *)

Lemma Int_part_IZR (z : Z) : Int_part (IZR z) = z.
Proof. symmetry. apply Int_part_spec. lra. Qed.



Lemma py_int_IZR (z : Z) : (0 <= z)%Z -> py_int (IZR z) = z.
Proof.
  intros Hz. unfold py_int.
  destruct (Rle_dec 0 (IZR z)) as [_ | Hn]; [apply Int_part_IZR | ].
  exfalso. apply Hn. now apply IZR_le.
Qed.

Lemma py_slice_window {A : Type} (x : list A) (o len : nat) :
  (o + len <= length x)%nat ->
  py_slice x (Z.of_nat o) (Z.of_nat o + Z.of_nat len) = firstn len (skipn o x) /\
  length (firstn len (skipn o x)) = len.
Proof.
  intros Hle. unfold py_slice, slice_bound.
  destruct (Z.ltb_spec (Z.of_nat o) 0) as [? | _]; [lia | ].
  destruct (Z.ltb_spec (Z.of_nat o + Z.of_nat len) 0) as [? | _]; [lia | ].
  rewrite Nat2Z.id, <- Nat2Z.inj_add, Nat2Z.id.
  rewrite !Nat.min_l by lia.
  replace (o + len - o)%nat with len by lia.
  split; [reflexivity | ].
  rewrite length_firstn, length_skipn. lia.
Qed.

Lemma fold_left_append_map {A B : Type} (f : A -> B) (l : list A) (acc : list B) :
  fold_left (fun segs i => segs ++ [f i]) l acc = acc ++ map f l.
Proof.
  revert acc. induction l as [ | a l IH]; intros acc; cbn.
  - now rewrite app_nil_r.
  - now rewrite IH, <- app_assoc.
Qed.




(** ** Frequency responses *)

Lemma repeat_seq {A : Type} (c : A) (s n : nat) :
  map (fun _ => c) (seq s n) = repeat c n.
Proof.
  revert s. induction n as [ | n IH]; intros s; cbn; [reflexivity | ].
  now rewrite IH.
Qed.

Lemma cmul_fin (a b c d : R) :
  cmul (Fin a, Fin b) (Fin c, Fin d)
  = (Fin (a * c - b * d), Fin (a * d + b * c)).
Proof. reflexivity. Qed.

Lemma cadd_fin (a b c d : R) :
  cadd (Fin a, Fin b) (Fin c, Fin d) = (Fin (a + c), Fin (b + d)).
Proof. reflexivity. Qed.

(** Zero coefficients add nothing to a bin. *)
Lemma dft_zero_tail (n k s len : nat) (a b : R) :
  fold_left cadd
    (zip_with (fun m v => cmul (of_real v) (twiddle n k m))
       (seq s len) (repeat (Fin 0) len))
    (Fin a, Fin b)
  = (Fin a, Fin b).
Proof.
  revert s a b. induction len as [ | len IH]; intros s a b; cbn [seq repeat zip_with fold_left].
  - reflexivity.
  - unfold of_real, twiddle. rewrite cmul_fin, cadd_fin, IH.
    f_equal; f_equal; ring.
Qed.

Lemma twiddle_first (n k : nat) : twiddle n k 0 = (Fin 1, Fin 0).
Proof.
  unfold twiddle.
  replace (2 * PI * INR k * INR 0 / INR n)%R with 0%R
    by (cbn [INR]; unfold Rdiv; ring).
  rewrite cos_0, sin_0. f_equal; f_equal; ring.
Qed.

(** The transform of a single coefficient is that coefficient at every
    bin. *)
Lemma dft_bin_single (c : R) (n k : nat) :
  (1 <= n)%nat -> dft_bin (resize [Fin c] n) n k = (Fin c, Fin 0).
Proof.
  intros Hn. destruct n as [ | n]; [lia | ].
  assert (Hr : resize [Fin c] (S n) = Fin c :: repeat (Fin 0) n).
  { unfold resize. cbn [length Nat.sub]. rewrite Nat.sub_0_r.
    now destruct n. }
  rewrite Hr. unfold dft_bin, csum, czero.
  cbn [length]. rewrite repeat_length.
  cbn [seq zip_with fold_left].
  rewrite twiddle_first. unfold of_real. rewrite cmul_fin, cadd_fin.
  rewrite dft_zero_tail. f_equal; f_equal; ring.
Qed.

Lemma fft_single (c : R) (n : nat) :
  (1 <= n)%nat -> fft [Fin c] n = Ok (repeat (Fin c, Fin 0) n).
Proof.
  intros Hn. unfold fft.
  destruct (Nat.ltb_spec n 1) as [? | _]; [lia | ].
  f_equal. rewrite <- (repeat_seq (Fin c, Fin 0) 0 n).
  apply map_ext. intros k. now apply dft_bin_single.
Qed.

Lemma fft_length (h : ndarray) (n : nat) (hh : list complex) :
  fft h n = Ok hh -> length hh = n.
Proof.
  unfold fft. destruct (n <? 1)%nat; [discriminate | ].
  intros [= <-]. now rewrite length_map, length_seq.
Qed.

Lemma count_true_le (mask : list bool) : (count_true mask <= length mask)%nat.
Proof. unfold count_true. apply filter_length_le. Qed.

Lemma count_nonzero_lt (l : list complex) :
  Exists (fun z => ceqb0 z = true) l ->
  (count_true (map negb (map ceqb0 l)) < length l)%nat.
Proof.
  induction 1 as [z l Hz | z l _ IH].
  - unfold count_true. cbn [map filter]. rewrite Hz. cbn [negb].
    pose proof (count_true_le (map negb (map ceqb0 l))) as Hle.
    unfold count_true in Hle. rewrite !length_map in Hle. cbn [length]. lia.
  - unfold count_true in *. cbn [map filter length].
    destruct (negb (ceqb0 z)); cbn [length]; lia.
Qed.

Lemma count_nonzero_all (l : list complex) :
  Forall (fun z => ceqb0 z = false) l ->
  count_true (map negb (map ceqb0 l)) = length l.
Proof.
  induction 1 as [ | z l Hz _ IH]; [reflexivity | ].
  unfold count_true in *. cbn [map filter]. rewrite Hz. cbn [negb length].
  now rewrite IH.
Qed.

Lemma put_mask_all {A : Type} (a v : list A) (l : list complex) (bcast : bool) :
  Forall (fun z => ceqb0 z = false) l ->
  length a = length l -> length v = length l ->
  (bcast = true -> length v = 1%nat) ->
  put_mask a (map negb (map ceqb0 l)) v bcast = v.
Proof.
  intros Hall. revert a v.
  induction Hall as [ | z l Hz _ IH]; intros a v Ha Hv Hb.
  - destruct a; [ | discriminate]. destruct v; [reflexivity | discriminate].
  - destruct a as [ | x a]; [discriminate | ].
    destruct v as [ | y v]; [discriminate | ].
    cbn [map put_mask]. rewrite Hz. cbn [negb].
    destruct bcast.
    + specialize (Hb eq_refl). destruct v; [ | discriminate].
      destruct l; [ | discriminate]. destruct a; [reflexivity | discriminate].
    + f_equal. apply IH; cbn in *; try lia; discriminate.
Qed.

Lemma mask_scalar_none {A : Type} (a : list A) (l : list complex) (c : A) :
  Forall (fun z => ceqb0 z = false) l -> length a = length l ->
  setitem_mask_scalar a (map ceqb0 l) c = a.
Proof.
  intros Hall. revert a. unfold setitem_mask_scalar.
  induction Hall as [ | z l Hz _ IH]; intros a Ha.
  - destruct a; [reflexivity | discriminate].
  - destruct a as [ | x a]; [discriminate | ].
    cbn [map zip_with]. rewrite Hz. f_equal. apply IH. cbn in Ha. lia.
Qed.

(** Without a zero bin, [iirfreqz] is the pointwise reciprocal of the
    transform. *)
Lemma iirfreqz_no_zero_bin (h : ndarray) (nfft : nat) (ceiling : float64)
  (hh_inv : list complex) :
  fft h nfft = Ok hh_inv ->
  Forall (fun z => ceqb0 z = false) hh_inv ->
  iirfreqz h nfft ceiling = Ok (linspace 0 2 nfft false, map cinv hh_inv).
Proof.
  intros Hfft Hall. unfold iirfreqz. rewrite Hfft. cbn [rbind].
  unfold setitem_mask. rewrite count_nonzero_all by assumption.
  rewrite !length_map.
  destruct (Nat.eqb_spec (length hh_inv) 1) as [E1 | _].
  - cbn [rbind].
    rewrite put_mask_all by (rewrite ?length_map; trivial).
    now rewrite mask_scalar_none by (rewrite ?length_map; trivial).
  - rewrite Nat.eqb_refl. cbn [rbind].
    rewrite put_mask_all by (rewrite ?length_map; trivial; discriminate).
    now rewrite mask_scalar_none by (rewrite ?length_map; trivial).
Qed.

(** With a zero bin and at least two points, the assignment
    [hh[~zeros] = 1 / hh_inv] offers [nfft] values for fewer positions and
    NumPy refuses it. *)
Lemma iirfreqz_zero_bin_raises (h : ndarray) (nfft : nat) (ceiling : float64)
  (hh_inv : list complex) :
  fft h nfft = Ok hh_inv -> (2 <= nfft)%nat ->
  Exists (fun z => ceqb0 z = true) hh_inv ->
  iirfreqz h nfft ceiling = Raise ValueError.
Proof.
  intros Hfft Hn Hex. unfold iirfreqz. rewrite Hfft. cbn [rbind].
  pose proof (fft_length _ _ Hfft) as Hlen.
  pose proof (count_nonzero_lt Hex) as Hlt.
  unfold setitem_mask. rewrite !length_map.
  destruct (Nat.eqb_spec (length hh_inv) 1) as [? | _]; [lia | ].
  destruct (Nat.eqb_spec (length hh_inv)
              (count_true (map negb (map ceqb0 hh_inv)))) as [? | _]; [lia | ].
  reflexivity.
Qed.

Lemma ceqb0_czero : ceqb0 (Fin 0, Fin 0) = true.
Proof. unfold ceqb0. cbn [fst snd]. now rewrite feqb_fin_true. Qed.

Lemma iirfreqz_zero_polynomial (nfft : nat) (ceiling : float64) :
  (2 <= nfft)%nat -> iirfreqz [Fin 0] nfft ceiling = Raise ValueError.
Proof.
  intros Hn.
  apply iirfreqz_zero_bin_raises with (hh_inv := repeat (Fin 0, Fin 0) nfft);
    trivial.
  - apply fft_single. lia.
  - destruct nfft as [ | nfft]; [lia | ]. cbn [repeat].
    apply Exists_cons_hd, ceqb0_czero.
Qed.

(** With a single point the one value of [1 / hh_inv] is broadcast over
    no position at all, and the ceiling is stored. *)
Lemma iirfreqz_zero_polynomial_one_point (ceiling : float64) :
  iirfreqz [Fin 0] 1 ceiling = Ok (linspace 0 2 1 false, [of_real ceiling]).
Proof.
  unfold iirfreqz. rewrite fft_single by lia. cbn [rbind repeat map].
  rewrite ceqb0_czero. reflexivity.
Qed.

(** C1 at its failing input. For the zero polynomial [0] and two
    frequency points, whatever the ceiling, [iirfreqz] does not return a
    response: both bins are zero, no position is left for the two
    reciprocals, and the masked assignment raises [ValueError] before
    the ceiling is stored. *)
Theorem iirfreqz_zero_polynomial_two_points (ceiling : float64) :
  iirfreqz [Fin 0] 2 ceiling = Raise ValueError.
Proof. apply iirfreqz_zero_polynomial. lia. Qed.

Lemma cinv_one : cinv (Fin 1, Fin 0) = (Fin 1, Fin 0).
Proof.
  unfold cinv. cbn [fst snd fmul fadd fneg].
  rewrite !fdiv_fin by lra. f_equal; f_equal; field.
Qed.

Lemma cmul_one : cmul (Fin 1, Fin 0) (Fin 1, Fin 0) = (Fin 1, Fin 0).
Proof. rewrite cmul_fin. f_equal; f_equal; ring. Qed.

Lemma zip_with_repeat {A B C : Type} (f : A -> B -> C) (a : A) (b : B) (n : nat) :
  zip_with f (repeat a n) (repeat b n) = repeat (f a b) n.
Proof. induction n as [ | n IH]; cbn; [reflexivity | now rewrite IH]. Qed.

Lemma map_repeat {A B : Type} (f : A -> B) (a : A) (n : nat) :
  map f (repeat a n) = repeat (f a) n.
Proof. induction n as [ | n IH]; cbn; [reflexivity | now rewrite IH]. Qed.

(** C9. For every [nfft >= 1], [freqz] with numerator [1] and
    denominator [1] returns the frequency grid together with a response
    equal to one at each of the [nfft] bins, whatever the ceiling. *)
Theorem freqz_unit_filter (nfft : nat) (ceiling : float64)
  (Hn : (1 <= nfft)%nat) :
  freqz [Fin 1] [Fin 1] nfft ceiling
  = Ok (linspace 0 2 nfft false, repeat (Fin 1, Fin 0) nfft) /\
  firfreqz [Fin 1] nfft
  = Ok (linspace 0 2 nfft false, repeat (Fin 1, Fin 0) nfft) /\
  iirfreqz [Fin 1] nfft ceiling
  = Ok (linspace 0 2 nfft false, repeat (Fin 1, Fin 0) nfft).
Proof.
  assert (Hfir : firfreqz [Fin 1] nfft
                 = Ok (linspace 0 2 nfft false, repeat (Fin 1, Fin 0) nfft)).
  { unfold firfreqz. now rewrite fft_single. }
  assert (Hiir : iirfreqz [Fin 1] nfft ceiling
                 = Ok (linspace 0 2 nfft false, repeat (Fin 1, Fin 0) nfft)).
  { rewrite iirfreqz_no_zero_bin with (hh_inv := repeat (Fin 1, Fin 0) nfft).
    - now rewrite map_repeat, cinv_one.
    - now apply fft_single.
    - apply Forall_forall. intros z Hz. apply repeat_spec in Hz. subst z.
      unfold ceqb0. cbn [fst snd]. now rewrite feqb_fin_false by lra. }
  split; [ | split; assumption].
  unfold freqz. rewrite Hfir, Hiir. cbn [rbind].
  unfold broadcast. rewrite Nat.eqb_refl. cbn [rbind].
  now rewrite zip_with_repeat, cmul_one.
Qed.

Lemma freqz_unit_filter_witness :
  freqz [Fin 1] [Fin 1] 4 FREQZ_CEILING
  = Ok (linspace 0 2 4 false, repeat (Fin 1, Fin 0) 4).
Proof.
  exact (proj1 (@freqz_unit_filter 4 FREQZ_CEILING ltac:(lia))).
Defined.

(** ** Quantization *)

Lemma tl_map_seq {A : Type} (f : nat -> A) (m : nat) :
  m <> 0%nat -> tl (map f (seq 0 m) ++ [f m]) = map f (seq 1 m).
Proof.
  intros Hm. destruct m as [ | m]; [contradiction | ].
  rewrite (seq_S m 1), map_app. reflexivity.
Qed.

Lemma zip_with_map_seq {A B : Type} (f : A -> A -> B) (e : nat -> A) (s m : nat) :
  zip_with f (map e (seq s m)) (map e (seq (S s) m))
  = map (fun k => f (e k) (e (S k))) (seq s m).
Proof.
  revert s. induction m as [ | m IH]; intros s; cbn [seq map zip_with];
    [reflexivity | now rewrite IH].
Qed.

Lemma zip_with_fadd_of_reals (a b : list R) :
  zip_with fadd (of_reals a) (of_reals b) = of_reals (zip_with Rplus a b).
Proof.
  revert b. induction a as [ | u a IH]; intros [ | v b]; cbn; trivial.
  f_equal. apply IH.
Qed.

Lemma filter_all {A : Type} (f : A -> bool) (l : list A) :
  (forall a, In a l -> f a = true) -> filter f l = l.
Proof.
  induction l as [ | a l IH]; intros H; cbn; [reflexivity | ].
  rewrite (H a) by now left. f_equal. apply IH. intros b Hb. apply H. now right.
Qed.

Lemma tl_map {A B : Type} (f : A -> B) (l : list A) : tl (map f l) = map f (tl l).
Proof. now destruct l. Qed.

Lemma seq_head (m : nat) : m <> 0%nat -> seq 0 m = 0%nat :: seq 1 (m - 1).
Proof.
  intros Hm. destruct m as [ | m]; [contradiction | ].
  cbn [seq Nat.sub]. now rewrite Nat.sub_0_r.
Qed.

Section Bins.

Variable N : nat.
Hypothesis HN : N <> 0%nat.

Let HNR : INR N <> 0%R.
Proof. now apply not_0_INR. Qed.

Lemma bin_edge_first : bin_edge N 0 = (-1)%R.
Proof. unfold bin_edge. cbn [INR]. lra. Qed.

Lemma bin_edge_last : bin_edge N N = 1%R.
Proof. unfold bin_edge. field. exact HNR. Qed.

Lemma bin_edge_le (k : nat) : (k <= N)%nat -> (bin_edge N k <= 1)%R.
Proof.
  intros Hk. rewrite <- bin_edge_last. unfold bin_edge.
  apply le_INR in Hk.
  assert (0 < INR N)%R by (pose proof (pos_INR N); lra).
  assert (0 < (1 - -1) / INR N)%R
    by (apply Rmult_lt_0_compat; [lra | now apply Rinv_0_lt_compat]).
  nra.
Qed.

Lemma linspace_bins :
  linspace (-1) 1 (N + 1) true = map (bin_edge N) (seq 0 N) ++ [1%R].
Proof.
  unfold linspace. replace (N + 1 - 1)%nat with N by lia.
  destruct (Nat.eqb_spec N 0) as [? | _]; [contradiction | ].
  destruct (Nat.ltb_spec 1 (N + 1)) as [_ | ?]; [ | lia].
  cbn [andb]. rewrite Nat.add_1_r, seq_S, map_app. cbn [map].
  now rewrite removelast_last.
Qed.

Lemma bins_tail :
  tl (map (bin_edge N) (seq 0 N) ++ [1%R]) = map (bin_edge N) (seq 1 N).
Proof. rewrite <- bin_edge_last. now apply tl_map_seq. Qed.

Lemma bin_edge_lt (i j : nat) :
  (i < j)%nat -> (bin_edge N i < bin_edge N j)%R.
Proof.
  intros Hij. unfold bin_edge. apply lt_INR in Hij.
  assert (0 < INR N)%R by (pose proof (pos_INR N); lra).
  assert (0 < (1 - -1) / INR N)%R
    by (apply Rmult_lt_0_compat; [lra | now apply Rinv_0_lt_compat]).
  nra.
Qed.

Lemma nudged_nth_low (k : nat) :
  (k < N)%nat ->
  nth k (map (bin_edge N) (seq 0 N) ++ [(101 / 100)%R]) 0%R = bin_edge N k.
Proof.
  intros Hk. rewrite app_nth1 by (now rewrite length_map, length_seq).
  rewrite (nth_indep _ 0%R (bin_edge N 0))
    by (now rewrite length_map, length_seq).
  now rewrite map_nth, seq_nth.
Qed.

Lemma nudged_nth_top :
  nth N (map (bin_edge N) (seq 0 N) ++ [(101 / 100)%R]) 0%R = (101 / 100)%R.
Proof.
  rewrite app_nth2 by (rewrite length_map, length_seq; lia).
  now rewrite length_map, length_seq, Nat.sub_diag.
Qed.

(** The nudged edges are strictly increasing, so [np.digitize] takes its
    increasing-bins path, the one [digitize1] describes. *)
Lemma nudged_bins_increasing (i j : nat) :
  (i < j <= N)%nat ->
  (nth i (map (bin_edge N) (seq 0 N) ++ [(101 / 100)%R]) 0
   < nth j (map (bin_edge N) (seq 0 N) ++ [(101 / 100)%R]) 0)%R.
Proof.
  intros [Hij HjN]. rewrite (nudged_nth_low (k := i)) by lia.
  destruct (Nat.eq_dec j N) as [-> | Hne].
  - rewrite nudged_nth_top.
    pose proof (@bin_edge_le i ltac:(lia)). lra.
  - rewrite (nudged_nth_low (k := j)) by lia. now apply bin_edge_lt.
Qed.

(** The midpoints computed from the edges, before the nudge. *)
Lemma qvals_levels :
  let bins := of_reals (linspace (-1) 1 (N + 1) true) in
  map (fun s => fdiv s (Fin 2)) (zip_with fadd (removelast bins) (tl bins))
  = of_reals (levels N).
Proof.
  cbv zeta. rewrite linspace_bins. unfold of_reals at 1 2.
  rewrite tl_map, bins_tail, map_app. cbn [map]. rewrite removelast_last.
  fold (of_reals (map (bin_edge N) (seq 0 N))).
  fold (of_reals (map (bin_edge N) (seq 1 N))).
  rewrite zip_with_fadd_of_reals, zip_with_map_seq.
  unfold of_reals, levels. rewrite !map_map.
  apply map_ext. intros k. rewrite fdiv_fin by lra. f_equal.
  unfold bin_edge. rewrite S_INR. field. exact HNR.
Qed.

Lemma nudge_bins :
  setitem_last (of_reals (linspace (-1) 1 (N + 1) true)) (Fin (101 / 100))
  = Ok (nudged_bins N).
Proof.
  rewrite linspace_bins. unfold nudged_bins, of_reals, setitem_last.
  rewrite !map_app. cbn [map]. rewrite removelast_last.
  destruct (map Fin (map (bin_edge N) (seq 0 N))); reflexivity.
Qed.

Lemma levels_length : length (levels N) = N.
Proof. unfold levels. now rewrite length_map, length_seq. Qed.

Lemma levels_range (v : R) : In v (levels N) -> (-1 <= v <= 1)%R.
Proof.
  unfold levels. intros Hin. apply in_map_iff in Hin as (k & <- & Hk).
  apply in_seq in Hk. destruct Hk as [_ Hk]. cbn in Hk.
  assert (HkR : (INR k + 1 <= INR N)%R)
    by (rewrite <- S_INR; apply le_INR; lia).
  pose proof (pos_INR k) as Hk0.
  assert (Hpos : (0 < INR N)%R) by lra.
  assert (Hq : (0 <= (2 * INR k + 1) / INR N <= 2)%R).
  { split.
    - apply Rmult_le_pos; [lra | left; now apply Rinv_0_lt_compat].
    - apply Rmult_le_reg_r with (INR N); [assumption | ].
      unfold Rdiv. rewrite Rmult_assoc, Rinv_l by lra. lra. }
  lra.
Qed.

Lemma levels_last : nth (N - 1) (levels N) 0%R = (1 - 1 / INR N)%R.
Proof.
  unfold levels.
  set (f := fun k => (-1 + (2 * INR k + 1) / INR N)%R).
  rewrite (nth_indep (map f (seq 0 N)) 0%R (f 0%nat))
    by (rewrite length_map, length_seq; lia).
  rewrite (map_nth f), seq_nth by lia. unfold f. cbn [Nat.add].
  rewrite minus_INR by lia. cbn [INR]. field. exact HNR.
Qed.

(** A value of [-1, 1] falls at or above the first edge and below the
    nudged last one. *)
Lemma digitize_range (y : R) :
  (-1 <= y <= 1)%R ->
  (1 <= digitize1 (nudged_bins N) (Fin y) <= N)%nat.
Proof.
  intros [Hlo Hhi]. unfold digitize1, nudged_bins, of_reals.
  rewrite map_app, filter_app, length_app. cbn [map filter].
  rewrite fleb_fin_false by lra. cbn [length]. rewrite Nat.add_0_r.
  split.
  - rewrite seq_head by assumption.
    cbn [map filter]. rewrite bin_edge_first.
    rewrite fleb_fin_true by lra. cbn [length]. lia.
  - eapply Nat.le_trans; [apply filter_length_le | ].
    now rewrite !length_map, length_seq.
Qed.

(** The normalized peak falls in the uppermost bin. *)
Lemma digitize_peak : digitize1 (nudged_bins N) (Fin 1) = N.
Proof.
  unfold digitize1, nudged_bins, of_reals.
  rewrite map_app, filter_app, length_app. cbn [map filter].
  rewrite fleb_fin_false by lra. cbn [length]. rewrite Nat.add_0_r.
  rewrite filter_all; [now rewrite !length_map, length_seq | ].
  intros b Hb. apply in_map_iff in Hb as (e & <- & He).
  apply in_map_iff in He as (k & <- & Hk). apply in_seq in Hk.
  apply fleb_fin_true, bin_edge_le. lia.
Qed.

Lemma level_of_in (y : R) : (-1 <= y <= 1)%R -> In (level_of N y) (levels N).
Proof.
  intros Hy. apply digitize_range in Hy. unfold level_of.
  apply nth_In. rewrite levels_length. lia.
Qed.

Lemma level_of_peak : level_of N 1 = (1 - 1 / INR N)%R.
Proof. unfold level_of. rewrite digitize_peak. apply levels_last. Qed.

(** Indexing the midpoints with the bin of a value of [-1, 1] never
    leaves the array. *)
Lemma getitem_level (y : R) :
  (-1 <= y <= 1)%R ->
  getitem (of_reals (levels N))
    (Z.of_nat (digitize1 (nudged_bins N) (Fin y)) - 1)
  = Ok (Fin (level_of N y)).
Proof.
  intros Hy. pose proof (digitize_range Hy) as [Hl Hu].
  unfold getitem, of_reals. rewrite length_map, levels_length.
  destruct (Z.ltb_spec (Z.of_nat (digitize1 (nudged_bins N) (Fin y)) - 1)
              (- Z.of_nat N)) as [? | _]; [lia | ].
  destruct (Z.leb_spec (Z.of_nat N)
              (Z.of_nat (digitize1 (nudged_bins N) (Fin y)) - 1)) as [? | _];
    [lia | ].
  cbn [orb].
  destruct (Z.ltb_spec (Z.of_nat (digitize1 (nudged_bins N) (Fin y)) - 1) 0)
    as [? | _]; [lia | ].
  replace (Z.to_nat (Z.of_nat (digitize1 (nudged_bins N) (Fin y)) - 1))
    with (digitize1 (nudged_bins N) (Fin y) - 1)%nat by lia.
  rewrite nth_error_map.
  rewrite (nth_error_nth' (levels N) 0%R) by (rewrite levels_length; lia).
  reflexivity.
Qed.

Lemma take_levels (ys : list R) :
  Forall (fun y => (-1 <= y <= 1)%R) ys ->
  take (of_reals (levels N))
    (map (fun i => (i - 1)%Z) (np_digitize (of_reals ys) (nudged_bins N)))
  = Ok (of_reals (map (level_of N) ys)).
Proof.
  induction 1 as [ | y ys Hy _ IH]; [reflexivity | ].
  unfold np_digitize, of_reals in *. cbn [map take].
  fold (of_reals (levels N)). rewrite (getitem_level Hy). cbn [rbind].
  fold (of_reals (levels N)) in IH. now rewrite IH.
Qed.

End Bins.

Lemma abs_le_peak (rs : list R) (v : R) : In v rs -> (Rabs v <= peak rs)%R.
Proof.
  unfold peak. induction rs as [ | u rs IH]; intros Hin; [contradiction | ].
  cbn [map fold_right]. destruct Hin as [-> | Hin].
  - apply Rmax_l.
  - eapply Rle_trans; [now apply IH | apply Rmax_r].
Qed.

Lemma normalized_range (rs : list R) :
  (0 < peak rs)%R ->
  Forall (fun y => (-1 <= y <= 1)%R) (map (fun v => v / peak rs)%R rs).
Proof.
  intros Hpos. apply Forall_forall. intros y Hy.
  apply in_map_iff in Hy as (v & <- & Hv).
  apply abs_le_peak in Hv.
  assert (Hb : (- peak rs <= v <= peak rs)%R).
  { unfold Rabs in Hv. destruct (Rcase_abs v); lra. }
  assert (Hi : (0 < / peak rs)%R) by now apply Rinv_0_lt_compat.
  assert (E : (peak rs * / peak rs = 1)%R) by (apply Rinv_r; lra).
  unfold Rdiv. split; nra.
Qed.

Lemma div_by_peak (rs : list R) :
  peak rs <> 0%R ->
  map (fun v => fdiv v (Fin (peak rs))) (of_reals rs)
  = of_reals (map (fun v => v / peak rs)%R rs).
Proof.
  intros Hpk. unfold of_reals. rewrite !map_map.
  apply map_ext. intros v. now apply fdiv_fin.
Qed.

(** What [quantize] returns and what it leaves in the store. *)
Lemma quantize_run (h : heap) (x : ref) (n : nat) (rs : list R) :
  h x = of_reals rs -> rs <> [] -> peak rs <> 0%R ->
  let ys := map (fun v => v / peak rs)%R rs in
  quantize x n h
  = Ok (of_reals (map (level_of (2 ^ n)) ys),
        fun y => if (y =? x)%nat then of_reals ys else h y).
Proof.
  intros Hx Hne Hpk ys.
  assert (HN : (2 ^ n)%nat <> 0%nat) by (apply Nat.pow_nonzero; discriminate).
  assert (Hpos : (0 < peak rs)%R) by (pose proof (peak_nonneg rs); lra).
  unfold quantize, bind, load, store, lift.
  rewrite Hx, np_max_abs_of_reals by assumption.
  rewrite div_by_peak by assumption. fold ys.
  rewrite (nudge_bins HN), Nat.eqb_refl, (qvals_levels HN).
  rewrite (take_levels HN) by (now apply normalized_range).
  reflexivity.
Qed.

(** C7. For every real-valued signal [rs] with a nonzero peak held in
    the store at [x], and every bit count [n], [quantize] returns an
    array as long as [rs]; each of its values is one of the [2 ^ n]
    levels, the midpoints of the equal-width bins that partition
    [-1, 1], and lies within [-1, 1]; a sample equal to the peak, which
    normalizes to 1, is mapped to the uppermost level [1 - 1 / 2^n]. *)
Theorem quantize_levels (h : heap) (x : ref) (n : nat) (rs : list R)
  (Hx : h x = of_reals rs) (Hpk : peak rs <> 0%R) :
  exists (out : list R) (h' : heap),
    quantize x n h = Ok (of_reals out, h') /\
    length out = length rs /\
    length (qlevels n) = (2 ^ n)%nat /\
    Forall (fun v => In v (qlevels n) /\ (-1 <= v <= 1)%R) out /\
    (forall i, (i < length rs)%nat -> nth i rs 0%R = peak rs ->
       nth i out 0%R = (1 - 1 / INR (2 ^ n))%R) /\
    nth (2 ^ n - 1) (qlevels n) 0%R = (1 - 1 / INR (2 ^ n))%R.
Proof.
  assert (Hne : rs <> []) by (intros ->; now apply Hpk).
  assert (HN : (2 ^ n)%nat <> 0%nat) by (apply Nat.pow_nonzero; discriminate).
  assert (Hpos : (0 < peak rs)%R) by (pose proof (peak_nonneg rs); lra).
  pose proof (@quantize_run h x n rs Hx Hne Hpk) as Hrun. cbv zeta in Hrun.
  pose proof (@normalized_range rs Hpos) as Hrange.
  eexists. eexists. split; [exact Hrun | ].
  unfold qlevels.
  split; [now rewrite !length_map | ].
  split; [now apply levels_length | ].
  split; [ | split; [ | now apply levels_last]].
  - apply Forall_forall. intros v Hv.
    apply in_map_iff in Hv as (y & <- & Hy).
    rewrite Forall_forall in Hrange. specialize (Hrange y Hy).
    pose proof (@level_of_in _ HN y Hrange) as Hin.
    split; [exact Hin | now apply (@levels_range _ HN)].
  - intros i Hi Hpeak.
    set (f := fun y => level_of (2 ^ n) y).
    rewrite (nth_indep _ 0%R (f (0 / peak rs)%R)) by (now rewrite !length_map).
    change (map (level_of (2 ^ n))) with (map f). rewrite (map_nth f).
    rewrite (map_nth (fun v => v / peak rs)%R), Hpeak.
    replace (peak rs / peak rs)%R with 1%R by (now field).
    now apply level_of_peak.
Qed.

Lemma quantize_levels_witness :
  exists (out : list R) (h' : heap),
    quantize 0 1 (fun _ => of_reals [2%R]) = Ok (of_reals out, h') /\
    length out = 1%nat.
Proof.
  assert (Hpk : peak [2%R] <> 0%R).
  { unfold peak. cbn [map fold_right]. rewrite (Rabs_right 2) by lra.
    rewrite Rmax_left by lra. lra. }
  destruct (@quantize_levels (fun _ => of_reals [2%R]) 0%nat 1%nat [2%R]
              eq_refl Hpk) as (out & h' & Hrun & Hlen & _).
  exists out, h'. split; assumption.
Defined.

(** C2 at its failing input. [quantize] on the array [0.5, -0.25] with
    one bit returns the two levels and leaves [1.0, -0.5] in the
    caller's array: the in-place division by the peak has overwritten
    the input. *)
Theorem quantize_overwrites_input :
  let h : heap := fun _ => of_reals [1 / 2; - (1 / 4)]%R in
  exists (out : ndarray) (h' : heap),
    quantize 0 1 h = Ok (out, h') /\
    h' 0%nat = of_reals [1; - (1 / 2)]%R /\
    h' 0%nat <> h 0%nat.
Proof.
  intros h.
  assert (Hpeak : peak [1 / 2; - (1 / 4)]%R = (1 / 2)%R).
  { unfold peak. cbn [map fold_right].
    rewrite (Rabs_right (1 / 2)), (Rabs_left (- (1 / 4))) by lra.
    rewrite (Rmax_left _ 0), Rmax_left by lra. reflexivity. }
  assert (Hrun := @quantize_run h 0%nat 1%nat [1 / 2; - (1 / 4)]%R eq_refl).
  cbv zeta in Hrun. rewrite Hpeak in Hrun.
  eexists. eexists. split; [apply Hrun; [discriminate | lra] | ].
  cbn [Nat.eqb map of_reals].
  assert (E1 : (1 / 2 / (1 / 2) = 1)%R) by field.
  assert (E2 : (- (1 / 4) / (1 / 2) = - (1 / 2))%R) by field.
  rewrite E1, E2. split; [reflexivity | ].
  unfold h. cbn [of_reals map]. intros [= Habs _]. lra.
Qed.

(** The same in general: whatever the signal, the caller's array holds
    the normalized samples after the call, and no other array of the
    store is touched. *)
Lemma quantize_store (h : heap) (x : ref) (n : nat) (rs : list R) :
  h x = of_reals rs -> peak rs <> 0%R ->
  exists (out : ndarray) (h' : heap),
    quantize x n h = Ok (out, h') /\
    h' x = of_reals (map (fun v => v / peak rs)%R rs) /\
    forall y, y <> x -> h' y = h y.
Proof.
  intros Hx Hpk.
  assert (Hne : rs <> []) by (intros ->; now apply Hpk).
  eexists. eexists.
  split; [exact (@quantize_run h x n rs Hx Hne Hpk) | ].
  split.
  - cbv beta. now rewrite Nat.eqb_refl.
  - intros y Hy. now destruct (Nat.eqb_spec y x).
Qed.

(** * Further properties of the module *)

(** ** nextpow2 beyond the smallest-power property *)

(** X1. For every [n >= 1], [nextpow2 n] is below [2 * n], is a fixed
    point of [nextpow2], and [nextpow2] is monotone from [n] upward. *)
Theorem nextpow2_bounds (n m : Z) (Hn : (1 <= n)%Z) :
  (nextpow2 n < 2 * n)%Z /\
  nextpow2 (nextpow2 n) = nextpow2 n /\
  ((n <= m)%Z -> (nextpow2 n <= nextpow2 m)%Z).
Proof.
  split; [ | split].
  - rewrite nextpow2_pow.
    destruct (n - 1)%Z as [ | p | p] eqn:E; try lia.
    + cbn [bit_length]. rewrite Z.pow_0_r. lia.
    + pose proof (size_nat_bounds p) as [Hl _]. cbn [bit_length].
      assert (Hs : (1 <= Z.of_nat (Pos.size_nat p))%Z)
        by (destruct p; cbn [Pos.size_nat]; lia).
      replace (Z.of_nat (Pos.size_nat p))
        with (Z.succ (Z.of_nat (Pos.size_nat p) - 1)) by lia.
      rewrite Z.pow_succ_r by lia. lia.
  - pose proof (nextpow2_lower Hn) as Hlow.
    apply Z.le_antisymm.
    + rewrite (nextpow2_pow n) at 2.
      apply nextpow2_least; [lia | apply bit_length_nonneg | ].
      rewrite <- nextpow2_pow. lia.
    + apply nextpow2_lower. lia.
  - intros Hle. rewrite (nextpow2_pow m).
    apply nextpow2_least; [assumption | apply bit_length_nonneg | ].
    rewrite <- nextpow2_pow.
    pose proof (@nextpow2_lower m ltac:(lia)). lia.
Qed.

Lemma nextpow2_bounds_witness :
  (nextpow2 5 < 2 * 5)%Z /\ nextpow2 (nextpow2 5) = nextpow2 5.
Proof.
  pose proof (@nextpow2_bounds 5 9 ltac:(lia)) as H.
  exact (conj (proj1 H) (proj1 (proj2 H))).
Defined.

(** X2. For [n <= 0] the bit length is taken of the magnitude of
    [n - 1]: [nextpow2 n] is then the power of two lying strictly above
    [1 - n] and at most twice that, so it is at least 2 (and
    [nextpow2 0 = 2], not 1). *)
Theorem nextpow2_nonpositive (n : Z) (Hn : (n <= 0)%Z) :
  (exists k, 1 <= k /\ nextpow2 n = 2 ^ k)%Z /\
  (1 - n < nextpow2 n <= 2 * (1 - n))%Z.
Proof.
  rewrite nextpow2_pow.
  destruct (n - 1)%Z as [ | p | p] eqn:E; try lia.
  cbn [bit_length].
  pose proof (size_nat_bounds p) as [Hl Hu].
  assert (Hs : (1 <= Z.of_nat (Pos.size_nat p))%Z)
    by (destruct p; cbn [Pos.size_nat]; lia).
  assert (Hp : Z.pos p = (1 - n)%Z) by lia.
  split.
  - exists (Z.of_nat (Pos.size_nat p)). split; [exact Hs | reflexivity].
  - split; [lia | ].
    replace (Z.of_nat (Pos.size_nat p))
      with (Z.succ (Z.of_nat (Pos.size_nat p) - 1)) by lia.
    rewrite Z.pow_succ_r by lia. lia.
Qed.

Lemma nextpow2_nonpositive_witness :
  (0 <= 0)%Z /\ (1 - 0 < nextpow2 0 <= 2 * (1 - 0))%Z.
Proof.
  split; [lia | ].
  exact (proj2 (@nextpow2_nonpositive 0 ltac:(lia))).
Defined.

(** ** The frequency grid and the transform *)

Lemma linspace_open (stop : R) (num : nat) :
  linspace 0 stop num false
  = map (fun k => (stop * INR k / INR num)%R) (seq 0 num).
Proof.
  unfold linspace.
  destruct (Nat.eqb_spec num 0) as [-> | Hne]; [reflexivity | ].
  cbn [andb]. apply map_ext. intros k.
  field. now apply not_0_INR.
Qed.

Lemma fft_defined (h : ndarray) (n : nat) :
  (1 <= n)%nat -> fft h n = Ok (map (dft_bin (resize h n) n) (seq 0 n)).
Proof.
  intros Hn. unfold fft.
  now destruct (Nat.ltb_spec n 1) as [? | _]; [lia | ].
Qed.

(** X3. With no frequency point the three responses raise [ValueError];
    with [nfft >= 1] points [firfreqz] returns [nfft] bins on the grid
    [2 k / nfft], [k = 0 .. nfft - 1], which starts at 0 and stays
    below 2. *)
Theorem firfreqz_grid (h : ndarray) (nfft : nat) (ceiling : float64) :
  (nfft = 0%nat ->
   firfreqz h nfft = Raise ValueError /\
   iirfreqz h nfft ceiling = Raise ValueError /\
   forall b, freqz b h nfft ceiling = Raise ValueError) /\
  ((1 <= nfft)%nat ->
   exists hh,
     firfreqz h nfft
     = Ok (map (fun k => (2 * INR k / INR nfft)%R) (seq 0 nfft), hh) /\
     length hh = nfft /\
     Forall (fun w => (0 <= w < 2)%R)
       (map (fun k => (2 * INR k / INR nfft)%R) (seq 0 nfft))).
Proof.
  split.
  - intros ->. repeat split; reflexivity.
  - intros Hn. eexists. split; [ | split].
    + unfold firfreqz. rewrite fft_defined by assumption. cbn [rbind].
      now rewrite linspace_open.
    + now rewrite length_map, length_seq.
    + apply Forall_forall. intros w Hw.
      apply in_map_iff in Hw as (k & <- & Hk). apply in_seq in Hk.
      assert (Hk' : (INR k < INR nfft)%R) by (apply lt_INR; lia).
      pose proof (pos_INR k) as Hk0.
      assert (Hpos : (0 < INR nfft)%R) by lra.
      assert (Hi : (0 < / INR nfft)%R) by now apply Rinv_0_lt_compat.
      split.
      * apply Rmult_le_pos; [lra | lra].
      * apply Rmult_lt_reg_r with (INR nfft); [assumption | ].
        unfold Rdiv. rewrite Rmult_assoc, Rinv_l by lra. lra.
Qed.

Lemma firfreqz_grid_witness :
  exists hh,
    firfreqz [Fin 1; Fin 2] 4
    = Ok (map (fun k => (2 * INR k / INR 4)%R) (seq 0 4), hh) /\
    length hh = 4%nat.
Proof.
  destruct (proj2 (@firfreqz_grid [Fin 1; Fin 2] 4 FREQZ_CEILING) ltac:(lia))
    as (hh & Hrun & Hlen & _).
  exists hh. split; assumption.
Defined.

Lemma zero_bin_dec (l : list complex) :
  Forall (fun z => ceqb0 z = false) l \/ Exists (fun z => ceqb0 z = true) l.
Proof.
  induction l as [ | z l [IH | IH]].
  - left. constructor.
  - destruct (ceqb0 z) eqn:E.
    + right. now apply Exists_cons_hd.
    + left. now constructor.
  - right. now apply Exists_cons_tl.
Qed.

Lemma iirfreqz_one_point (h : ndarray) (ceiling : float64) (z : complex) :
  fft h 1 = Ok [z] ->
  iirfreqz h 1 ceiling
  = Ok (linspace 0 2 1 false, [if ceqb0 z then of_real ceiling else cinv z]).
Proof.
  intros Hfft. unfold iirfreqz. rewrite Hfft. cbn [rbind map].
  unfold setitem_mask. cbn [length Nat.eqb rbind put_mask].
  destruct (ceqb0 z); reflexivity.
Qed.

(** X4. With [nfft >= 1] points, [iirfreqz] returns the pointwise
    reciprocal of the transform when no bin is zero; with a single
    point it returns the ceiling for a zero bin and the reciprocal
    otherwise; and it raises [ValueError] exactly when there are at
    least two points and some bin of the transform is zero. *)
Theorem iirfreqz_outcome (h : ndarray) (nfft : nat) (ceiling : float64)
  (Hn : (1 <= nfft)%nat) :
  exists hh_inv,
    fft h nfft = Ok hh_inv /\ length hh_inv = nfft /\
    (Forall (fun z => ceqb0 z = false) hh_inv ->
     iirfreqz h nfft ceiling = Ok (linspace 0 2 nfft false, map cinv hh_inv)) /\
    (nfft = 1%nat ->
     iirfreqz h nfft ceiling
     = Ok (linspace 0 2 nfft false,
           map (fun z => if ceqb0 z then of_real ceiling else cinv z) hh_inv)) /\
    (iirfreqz h nfft ceiling = Raise ValueError <->
     (2 <= nfft)%nat /\ Exists (fun z => ceqb0 z = true) hh_inv).
Proof.
  pose proof (fft_defined h Hn) as Hfft.
  pose proof (fft_length _ _ Hfft) as Hlen.
  eexists. split; [exact Hfft | ]. split; [exact Hlen | ].
  set (hh_inv := map (dft_bin (resize h nfft) nfft) (seq 0 nfft)) in *.
  assert (Hone : nfft = 1%nat ->
                 iirfreqz h nfft ceiling
                 = Ok (linspace 0 2 nfft false,
                       map (fun z => if ceqb0 z then of_real ceiling else cinv z)
                         hh_inv)).
  { intros ->. destruct hh_inv as [ | z [ | ? ?]] eqn:E; try discriminate.
    now apply iirfreqz_one_point. }
  split; [now apply iirfreqz_no_zero_bin | ].
  split; [exact Hone | ].
  split.
  - intros Hraise.
    destruct (zero_bin_dec hh_inv) as [Hall | Hex].
    + rewrite (@iirfreqz_no_zero_bin h nfft ceiling hh_inv Hfft Hall) in Hraise.
      discriminate.
    + split; [ | exact Hex].
      destruct (Nat.eq_dec nfft 1) as [E | ?]; [ | lia].
      rewrite (Hone E) in Hraise. discriminate.
  - intros [H2 Hex]. now apply iirfreqz_zero_bin_raises with (hh_inv := hh_inv).
Qed.

Lemma iirfreqz_outcome_witness :
  exists hh_inv, fft [Fin 1; Fin 1] 2 = Ok hh_inv /\ length hh_inv = 2%nat.
Proof.
  destruct (@iirfreqz_outcome [Fin 1; Fin 1] 2 FREQZ_CEILING ltac:(lia))
    as (hh_inv & Hfft & Hlen & _).
  exists hh_inv. split; assumption.
Defined.

Lemma twiddle_dc (n m : nat) : twiddle n 0 m = (Fin 1, Fin 0).
Proof.
  unfold twiddle.
  replace (2 * PI * INR 0 * INR m / INR n)%R with 0%R
    by (cbn [INR]; unfold Rdiv; ring).
  rewrite cos_0, sin_0. f_equal; f_equal; ring.
Qed.

(** Bin 0 of the transform accumulates the coefficients themselves. *)
Lemma dft_dc_fold (n s : nat) (l : list R) (a b : R) :
  fold_left cadd
    (zip_with (fun m v => cmul (of_real v) (twiddle n 0 m))
       (seq s (length l)) (of_reals l))
    (Fin a, Fin b)
  = (Fin (a + fold_right Rplus 0%R l), Fin b).
Proof.
  revert s a b. induction l as [ | v l IH]; intros s a b;
    cbn [length seq of_reals map zip_with fold_left fold_right].
  - f_equal. f_equal. ring.
  - rewrite twiddle_dc. unfold of_real. rewrite cmul_fin, cadd_fin.
    fold (of_reals l). rewrite IH. f_equal; f_equal; ring.
Qed.

Lemma resize_of_reals (cs : list R) (n : nat) :
  resize (of_reals cs) n
  = of_reals (firstn n cs ++ repeat 0%R (n - length cs)).
Proof.
  unfold resize, of_reals.
  now rewrite map_app, firstn_map, map_repeat, length_map.
Qed.

Lemma sum_zero_padded (l : list R) (m : nat) :
  fold_right Rplus 0%R (l ++ repeat 0%R m) = fold_right Rplus 0%R l.
Proof.
  induction l as [ | v l IH]; cbn [app fold_right].
  - induction m as [ | m IHm]; cbn [repeat fold_right]; [reflexivity | ].
    rewrite IHm. ring.
  - now rewrite IH.
Qed.

Lemma dft_bin_dc (cs : list R) (n : nat) :
  dft_bin (resize (of_reals cs) n) n 0
  = (Fin (fold_right Rplus 0%R (firstn n cs)), Fin 0).
Proof.
  rewrite resize_of_reals. unfold dft_bin, csum, czero.
  unfold of_reals at 1. rewrite length_map.
  rewrite dft_dc_fold, sum_zero_padded. f_equal. f_equal. ring.
Qed.

(** X5. A real denominator whose coefficients (those the transform
    keeps, the first [nfft]) sum to zero has a zero bin at frequency 0,
    so with at least two points [iirfreqz] raises [ValueError]; this is
    the case of the integrator [1, -1]. *)
Theorem iirfreqz_dc_zero (cs : list R) (nfft : nat) (ceiling : float64)
  (Hn : (2 <= nfft)%nat)
  (Hsum : fold_right Rplus 0%R (firstn nfft cs) = 0%R) :
  iirfreqz (of_reals cs) nfft ceiling = Raise ValueError.
Proof.
  apply iirfreqz_zero_bin_raises
    with (hh_inv := map (dft_bin (resize (of_reals cs) nfft) nfft) (seq 0 nfft));
    trivial.
  - apply fft_defined. lia.
  - rewrite seq_head by lia. cbn [map]. apply Exists_cons_hd.
    rewrite dft_bin_dc, Hsum. apply ceqb0_czero.
Qed.

Lemma iirfreqz_dc_zero_witness :
  iirfreqz (of_reals [1; -1]%R) 8 FREQZ_CEILING = Raise ValueError.
Proof.
  apply (@iirfreqz_dc_zero [1; -1]%R 8 FREQZ_CEILING); [lia | ].
  cbn [firstn fold_right]. lra.
Defined.

(** X6. [freqz] multiplies, bin by bin, the transform of the numerator
    by the reciprocal of the transform of the denominator when the
    latter has no zero bin, whatever the ceiling; when it has one and
    there are at least two points, [freqz] raises [ValueError]. *)
Theorem freqz_product (numerator demonimator : ndarray) (nfft : nat)
  (ceiling : float64) (hn hd : list complex)
  (Hnum : fft numerator nfft = Ok hn) (Hden : fft demonimator nfft = Ok hd) :
  (Forall (fun z => ceqb0 z = false) hd ->
   freqz numerator demonimator nfft ceiling
   = Ok (linspace 0 2 nfft false, zip_with cmul hn (map cinv hd))) /\
  ((2 <= nfft)%nat -> Exists (fun z => ceqb0 z = true) hd ->
   freqz numerator demonimator nfft ceiling = Raise ValueError).
Proof.
  pose proof (fft_length _ _ Hnum) as Ln.
  pose proof (fft_length _ _ Hden) as Ld.
  split.
  - intros Hall. unfold freqz, firfreqz. rewrite Hnum. cbn [rbind].
    rewrite (@iirfreqz_no_zero_bin demonimator nfft ceiling hd Hden Hall).
    cbn [rbind].
    unfold broadcast. rewrite length_map, Ln, Ld, Nat.eqb_refl.
    reflexivity.
  - intros H2 Hex. unfold freqz, firfreqz. rewrite Hnum. cbn [rbind].
    now rewrite (@iirfreqz_zero_bin_raises demonimator nfft ceiling hd Hden H2 Hex).
Qed.

Lemma freqz_product_witness :
  freqz [Fin 1] [Fin 1] 2 FREQZ_CEILING
  = Ok (linspace 0 2 2 false,
        zip_with cmul (repeat (Fin 1, Fin 0) 2)
          (map cinv (repeat (Fin 1, Fin 0) 2))).
Proof.
  refine (proj1 (@freqz_product [Fin 1] [Fin 1] 2 FREQZ_CEILING
                   (repeat (Fin 1, Fin 0) 2) (repeat (Fin 1, Fin 0) 2) _ _) _).
  - apply fft_single. lia.
  - apply fft_single. lia.
  - repeat constructor; unfold ceqb0; cbn [fst snd];
      now rewrite feqb_fin_false by lra.
Defined.

(** ** Segments *)

Lemma round_half_even_zero : round_half_even 0 = 0%Z.
Proof.
  unfold round_half_even. change 0%R with (IZR 0). rewrite Int_part_IZR.
  destruct (Rlt_dec (IZR 0 - IZR 0) (1 / 2)) as [_ | Hn]; [reflexivity | ].
  exfalso. apply Hn. lra.
Qed.

(** X7. When the requested length is the length of the signal, the only
    admissible offset is 0: whatever the draws, [sample] returns [K]
    copies of the whole signal and consumes [K] draws. *)
Theorem sample_whole_signal {A : Type} (x : list A) (K : nat) (g : rng) :
  sample x (length x) K g = Ok (repeat x K, fun i => g (K + i)%nat).
Proof.
  unfold sample. rewrite Nat.ltb_irrefl, Nat.sub_diag.
  unfold bind, rand_rand, ret.
  rewrite fold_left_append_map, app_nil_l, !map_map.
  f_equal. f_equal.
  rewrite <- (repeat_seq x 0 K). apply map_ext. intros i.
  cbn [INR]. rewrite Rmult_0_r. unfold np_around.
  rewrite round_half_even_zero, py_int_IZR by lia.
  destruct (@py_slice_window A x 0 (length x) ltac:(lia)) as [Hsl _].
  cbn [Z.of_nat skipn] in Hsl. rewrite Hsl. apply firstn_all.
Qed.




(** ** Noise at a target SNR: edges and invariants *)

(** X9. For a non-empty signal and an empty noise, unless the SNR is
    [+inf], the number of tiles is computed as [len x / 0] and both
    [additive_noise] and [add_noise] raise [ZeroDivisionError]. *)
Theorem add_noise_empty_noise (x : ndarray) (snr : option float64) (g : rng)
  (Hx : x <> []) (Hsnr : snr_eqb snr PInf = false) :
  additive_noise x [] snr g = Raise ZeroDivisionError /\
  add_noise x [] snr g = Raise ZeroDivisionError.
Proof.
  assert (Ha : additive_noise x [] snr g = Raise ZeroDivisionError).
  { unfold additive_noise. rewrite Hsnr.
    destruct x as [ | v x]; [congruence | ]. reflexivity. }
  split; [exact Ha | ].
  unfold add_noise, bind. now rewrite Ha.
Qed.

Lemma add_noise_empty_noise_witness :
  add_noise [Fin 1] [] None (fun _ => 0%R) = Raise ZeroDivisionError.
Proof.
  refine (proj2 (@add_noise_empty_noise [Fin 1] None (fun _ => 0%R) _ _)).
  - discriminate.
  - reflexivity.
Defined.

Lemma snr_in_range_uniform (u : R) :
  (0 <= u < 1)%R ->
  (Rpower 10 ((u - 1 / 4) * 20 / 10) < pow_overflow_bound)%R.
Proof. intros Hu. apply pow10_in_range. lra. Qed.

(** Once the noise has the length of the signal, [additive_noise]
    returns that many samples, provided the power is in range. *)
Lemma additive_noise_adjusted (x n nn : ndarray) (snr : option float64)
  (g : rng) :
  (if (length n <? length x)%nat
   then bind (lift (ceil_div (length x) (length n)))
          (fun reps => ret (firstn (length x) (np_tile n reps)))
   else ret (firstn (length x) n)) g
  = Ok (nn, g) ->
  length nn = length x ->
  snr_in_range snr g ->
  exists out g', additive_noise x n snr g = Ok (out, g') /\ length out = length x.
Proof.
  intros Hadj Hlen Hrange. unfold additive_noise.
  destruct (snr_eqb snr PInf).
  - eexists. eexists. split; [reflexivity | ].
    unfold np_zeros_like. apply length_map.
  - unfold bind at 1. rewrite Hadj.
    destruct (snr_eqb snr NInf).
    + eexists. eexists. split; [reflexivity | exact Hlen].
    + destruct snr as [s | ].
      * assert (Hp : py_pow10 (fdiv s (Fin 10)) = Ok (fpow10 (fdiv s (Fin 10)))).
        { destruct s as [r | | | ];
            [now apply py_pow10_in_range | | | ];
            now apply py_pow10_special. }
        unfold bind, ret, lift. rewrite !dot_self, Hp.
        eexists. eexists. split; [reflexivity | now rewrite length_map].
      * cbn [snr_in_range] in Hrange.
        unfold bind, ret, lift, rand_random. rewrite !dot_self.
        change (fmul (fsub (Fin (g 0%nat)) (Fin (1 / 4))) (Fin 20))
          with (Fin ((g 0%nat - 1 / 4) * 20)).
        rewrite py_pow10_in_range by assumption.
        eexists. eexists. split; [reflexivity | now rewrite length_map].
Qed.

Lemma add_noise_after_additive (x n : ndarray) (snr : option float64) (g : rng) :
  (exists noise g',
     additive_noise x n snr g = Ok (noise, g') /\ length noise = length x) ->
  exists out g', add_noise x n snr g = Ok (out, g') /\ length out = length x.
Proof.
  intros (noise & g' & Hrun & Hlen).
  unfold add_noise, bind. rewrite Hrun.
  destruct (snr_eqb snr NInf).
  - eexists. eexists. split; [reflexivity | exact Hlen].
  - unfold lift, np_add, broadcast. rewrite Hlen, Nat.eqb_refl.
    eexists. eexists. split; [reflexivity | ].
    rewrite zip_with_length, Hlen. apply Nat.min_id.
Qed.

(** X10. With a non-empty noise, whatever the signal and the noise,
    [add_noise] returns exactly as many samples as the signal has
    whenever the power [10 ** (snr / 10)] is within the float64 range:
    for a sentinel or NaN, for a finite SNR of at most 3000 dB, and for
    an SNR left out and drawn from a uniform deviate. For a finite SNR
    whose power overflows it raises [OverflowError]. *)
Theorem add_noise_length (x n : ndarray) (snr : option float64) (g : rng)
  (Hn : n <> []) :
  (snr_in_range snr g ->
   exists out g', add_noise x n snr g = Ok (out, g') /\ length out = length x) /\
  (forall r, snr = Some (Fin r) ->
     (pow_overflow_bound <= Rpower 10 (r / 10))%R ->
     add_noise x n snr g = Raise OverflowError) /\
  (forall r, snr = Some (Fin r) -> (r <= 3000)%R -> snr_in_range snr g) /\
  (snr = None -> (0 <= g 0%nat < 1)%R -> snr_in_range snr g).
Proof.
  split; [ | split; [ | split]].
  - intros Hrange. apply add_noise_after_additive.
    apply additive_noise_adjusted
      with (nn := length_adjusted (Fin 0) n (length x)); trivial.
    + now apply adjust_noise.
    + now apply length_adjusted_length.
  - intros r -> Hr. unfold add_noise, bind.
    now rewrite additive_noise_overflow.
  - intros r -> Hr. cbn [snr_in_range]. apply pow10_in_range. lra.
  - intros -> Hu. now apply snr_in_range_uniform.
Qed.

Lemma add_noise_length_witness :
  (exists out g',
     add_noise [Fin 1; Fin 2; Fin 3] [Fin 4] (Some (Fin 20)) (fun _ => 0%R)
     = Ok (out, g') /\ length out = 3%nat) /\
  add_noise [Fin 1; Fin 2; Fin 3] [Fin 4] (Some (Fin 4000)) (fun _ => 0%R)
  = Raise OverflowError.
Proof.
  split.
  - refine (proj1 (@add_noise_length [Fin 1; Fin 2; Fin 3] [Fin 4]
                     (Some (Fin 20)) (fun _ => 0%R) _) _).
    + discriminate.
    + cbn [snr_in_range]. apply pow10_in_range. lra.
  - refine (proj1 (proj2 (@add_noise_length [Fin 1; Fin 2; Fin 3] [Fin 4]
                            (Some (Fin 4000)) (fun _ => 0%R) _))
              4000%R eq_refl _).
    + discriminate.
    + apply pow10_out_of_range. lra.
Defined.

(** X11. When the SNR is left out, [add_noise] consumes one draw [u] and
    behaves from then on as with the SNR [(u - 0.25) * 20] dB, a value
    of [-5, 15). *)
Theorem add_noise_default_snr (x n : ndarray) (g : rng)
  (Hu : (0 <= g 0%nat < 1)%R) :
  exists r : R,
    r = ((g 0%nat - 1 / 4) * 20)%R /\ (-5 <= r < 15)%R /\
    add_noise x n None g = add_noise x n (Some (Fin r)) (fun i => g (S i)).
Proof.
  exists ((g 0%nat - 1 / 4) * 20)%R.
  split; [reflexivity | ]. split; [lra | ].
  unfold add_noise, additive_noise. cbn [snr_eqb feqb].
  unfold bind, ret, lift, rand_random, ceil_div.
  destruct (length n <? length x)%nat; [destruct (length n =? 0)%nat | ];
    reflexivity.
Qed.

Lemma add_noise_default_snr_witness :
  exists r : R,
    (-5 <= r < 15)%R /\
    add_noise [Fin 1] [Fin 1] None (fun _ => (1 / 2)%R)
    = add_noise [Fin 1] [Fin 1] (Some (Fin r)) (fun _ => (1 / 2)%R).
Proof.
  destruct (@add_noise_default_snr [Fin 1] [Fin 1] (fun _ => (1 / 2)%R)
              ltac:(lra)) as (r & _ & Hr & Hrun).
  exists r. split; [exact Hr | exact Hrun].
Defined.

(** ** Peak normalization: range, sign and degenerate signals *)

Lemma peak_opp (rs : list R) : peak (map Ropp rs) = peak rs.
Proof.
  unfold peak. induction rs as [ | v rs IH]; cbn [map fold_right].
  - reflexivity.
  - now rewrite IH, Rabs_Ropp.
Qed.

Lemma fneg_of_reals (ys : list R) : map fneg (of_reals ys) = of_reals (map Ropp ys).
Proof. unfold of_reals. now rewrite !map_map. Qed.

(** X12. For a non-empty real-valued signal with a nonzero peak,
    [normalize] returns values within [-1, 1], and normalizing the
    negated signal gives the negated result. *)
Theorem normalize_range_sign (rs : list R)
  (Hne : rs <> []) (Hpk : peak rs <> 0%R) :
  (exists ys, normalize (of_reals rs) = Ok (of_reals ys) /\
              Forall (fun y => (-1 <= y <= 1)%R) ys) /\
  normalize (of_reals (map Ropp rs))
  = rbind (normalize (of_reals rs)) (fun y => Ok (map fneg y)).
Proof.
  pose proof (peak_nonneg rs) as H0.
  assert (Hpos : (0 < peak rs)%R) by lra.
  assert (Hrun := normalize_of_reals Hne Hpk).
  assert (Hne' : map Ropp rs <> [])
    by (destruct rs; [congruence | discriminate]).
  assert (Hpk' : peak (map Ropp rs) <> 0%R) by (now rewrite peak_opp).
  split.
  - eexists. split; [exact Hrun | now apply normalized_range].
  - rewrite (normalize_of_reals Hne' Hpk'), Hrun. cbn [rbind].
    rewrite fneg_of_reals. do 2 f_equal.
    rewrite !map_map. apply map_ext. intros v.
    rewrite peak_opp. field. lra.
Qed.

Lemma peak_3_6 : peak [3; -6]%R = 6%R.
Proof.
  unfold peak. cbn [map fold_right].
  rewrite (Rabs_right 3), (Rabs_left (-6)) by lra.
  rewrite (Rmax_left _ 0), Rmax_right by lra. lra.
Qed.

Lemma normalize_range_sign_witness :
  normalize (of_reals (map Ropp [3; -6]%R))
  = rbind (normalize (of_reals [3; -6]%R)) (fun y => Ok (map fneg y)).
Proof.
  refine (proj2 (@normalize_range_sign [3; -6]%R _ _)).
  - discriminate.
  - rewrite peak_3_6. lra.
Defined.

Lemma peak_silent (rs : list R) : Forall (fun v => v = 0%R) rs -> peak rs = 0%R.
Proof.
  unfold peak. induction 1 as [ | v rs -> _ IH]; cbn [map fold_right].
  - reflexivity.
  - rewrite IH, Rabs_R0. now apply Rmax_left; lra.
Qed.

Lemma fdiv_zero_zero : fdiv (Fin 0) (Fin 0) = NaN.
Proof. unfold fdiv, scale_inf. now rewrite Rsign_zero. Qed.

Lemma div_silent (rs : list R) :
  Forall (fun v => v = 0%R) rs ->
  map (fun v => fdiv v (Fin 0)) (of_reals rs) = map (fun _ => NaN) rs.
Proof.
  intros Hz. unfold of_reals. rewrite map_map.
  apply map_ext_in. intros v Hv.
  rewrite Forall_forall in Hz. rewrite (Hz v Hv). apply fdiv_zero_zero.
Qed.

(** X13. [normalize] refuses an empty signal with [ValueError], and
    turns a non-empty all-zero signal into an array of NaN of the same
    length (each sample is [0 / 0]). *)
Theorem normalize_degenerate (rs : list R) :
  normalize [] = Raise ValueError /\
  (rs <> [] -> Forall (fun v => v = 0%R) rs ->
   normalize (of_reals rs) = Ok (map (fun _ => NaN) rs)).
Proof.
  split; [reflexivity | ].
  intros Hne Hz. unfold normalize.
  rewrite np_max_abs_of_reals by assumption.
  rewrite (peak_silent Hz). cbn [rbind]. now rewrite div_silent.
Qed.

Lemma normalize_degenerate_witness :
  normalize (of_reals [0; 0]%R) = Ok [NaN; NaN].
Proof.
  refine (proj2 (@normalize_degenerate [0; 0]%R) _ _).
  - discriminate.
  - repeat constructor.
Defined.

(** ** Quantization: degenerate signals and the quantization error *)

Lemma nudged_bins_length (N : nat) : length (nudged_bins N) = S N.
Proof.
  unfold nudged_bins, of_reals.
  rewrite length_map, length_app, length_map, length_seq. cbn. lia.
Qed.

(** X14. [quantize] raises [ValueError] on an empty array, and
    [IndexError] on a non-empty all-zero array: the samples become NaN,
    which [np.digitize] places past the last bin edge, one position
    beyond the array of levels. *)
Theorem quantize_degenerate (h : heap) (x : ref) (n : nat) (rs : list R) :
  (h x = [] -> quantize x n h = Raise ValueError) /\
  (h x = of_reals rs -> rs <> [] -> Forall (fun v => v = 0%R) rs ->
   quantize x n h = Raise IndexError).
Proof.
  split.
  - intros Hx. unfold quantize, bind, load, lift. now rewrite Hx.
  - intros Hx Hne Hz.
    assert (HN : (2 ^ n)%nat <> 0%nat) by (apply Nat.pow_nonzero; discriminate).
    unfold quantize, bind, load, store, lift.
    rewrite Hx, np_max_abs_of_reals by assumption.
    rewrite (peak_silent Hz), div_silent by assumption.
    rewrite (nudge_bins HN), Nat.eqb_refl, (qvals_levels HN).
    destruct rs as [ | v rs]; [congruence | ].
    unfold np_digitize. cbn [map take digitize1].
    rewrite nudged_bins_length. unfold getitem, of_reals.
    rewrite length_map, (levels_length (2 ^ n)).
    replace (Z.of_nat (S (2 ^ n)) - 1)%Z with (Z.of_nat (2 ^ n)) by lia.
    rewrite Z.leb_refl, orb_true_r. reflexivity.
Qed.

Lemma quantize_degenerate_witness :
  quantize 0 3 (fun _ => of_reals [0; 0]%R) = Raise IndexError.
Proof.
  refine (proj2 (@quantize_degenerate (fun _ => of_reals [0; 0]%R) 0%nat 3%nat
                   [0; 0]%R) eq_refl _ _).
  - discriminate.
  - repeat constructor.
Defined.

Lemma filter_map_length {A B : Type} (f : B -> bool) (g : A -> B) (l : list A) :
  length (filter f (map g l)) = length (filter (fun a => f (g a)) l).
Proof.
  induction l as [ | a l IH]; cbn [map filter]; [reflexivity | ].
  destruct (f (g a)); cbn [length]; now rewrite IH.
Qed.

Lemma antitone_below (p : nat -> bool) (m : nat) :
  (forall k, p (S k) = true -> p k = true) ->
  p m = true -> forall k, (k <= m)%nat -> p k = true.
Proof.
  intros Hp. induction m as [ | m IH]; intros Hm k Hk.
  - now replace k with 0%nat by lia.
  - destruct (Nat.eq_dec k (S m)) as [-> | ?]; [assumption | ].
    apply IH; [now apply Hp | lia].
Qed.

(** On a predicate that, once false, stays false, filtering [0 .. m - 1]
    keeps an initial segment. *)
Lemma filter_prefix (p : nat -> bool) (m : nat) :
  (forall k, p (S k) = true -> p k = true) ->
  (length (filter p (seq 0 m)) <= m)%nat /\
  (forall k, (k < length (filter p (seq 0 m)))%nat -> p k = true) /\
  (forall k, (length (filter p (seq 0 m)) <= k < m)%nat -> p k = false).
Proof.
  intros Hp. induction m as [ | m (IHle & IHt & IHf)].
  - cbn. repeat split; intros; lia.
  - rewrite seq_S, filter_app, length_app. cbn [Nat.add filter].
    destruct (p m) eqn:Em; cbn [length].
    + assert (Hall : forall k, (k <= m)%nat -> p k = true)
        by now apply antitone_below.
      assert (Hc : length (filter p (seq 0 m)) = m).
      { destruct (Nat.eq_dec (length (filter p (seq 0 m))) m) as [E | NE];
          [exact E | ].
        specialize (IHf (length (filter p (seq 0 m))) ltac:(lia)).
        rewrite Hall in IHf by lia. discriminate. }
      rewrite Hc. repeat split; intros; [lia | apply Hall; lia | lia].
    + rewrite Nat.add_0_r. repeat split.
      * lia.
      * exact IHt.
      * intros k Hk. destruct (Nat.eq_dec k m) as [-> | ?]; [exact Em | ].
        apply IHf. lia.
Qed.

Lemma levels_nth (N k : nat) :
  (k < N)%nat -> nth k (levels N) 0%R = (-1 + (2 * INR k + 1) / INR N)%R.
Proof.
  intros Hk. unfold levels.
  set (f := fun k => (-1 + (2 * INR k + 1) / INR N)%R).
  rewrite (nth_indep (map f (seq 0 N)) 0%R (f 0%nat))
    by (now rewrite length_map, length_seq).
  now rewrite (map_nth f), seq_nth.
Qed.

(** The bin a value of [-1, 1] falls into: between edge [c - 1] and edge
    [c], where [c] is what [np.digitize] returns. *)
Lemma digitize_bracket (N : nat) (y : R) :
  N <> 0%nat -> (-1 <= y <= 1)%R ->
  let c := digitize1 (nudged_bins N) (Fin y) in
  (1 <= c <= N)%nat /\
  (bin_edge N (c - 1) <= y <= bin_edge N c)%R.
Proof.
  intros HN Hy c.
  pose proof (@digitize_range N HN y Hy) as Hc. fold c in Hc.
  split; [exact Hc | ].
  set (p := fun k => fleb (Fin (bin_edge N k)) (Fin y)).
  assert (Hcount : c = length (filter p (seq 0 N))).
  { unfold c, digitize1, nudged_bins, of_reals.
    rewrite map_app, filter_app, length_app. cbn [map filter].
    rewrite fleb_fin_false by lra. cbn [length]. rewrite Nat.add_0_r.
    now rewrite !filter_map_length. }
  assert (Hp : forall k, p (S k) = true -> p k = true).
  { intros k. unfold p. cbn [fleb].
    destruct (Rle_dec (bin_edge N (S k)) y) as [Hle | ]; [ | discriminate].
    intros _. pose proof (@bin_edge_lt N HN k (S k) ltac:(lia)).
    destruct (Rle_dec (bin_edge N k) y) as [ | Hn]; [reflexivity | ].
    exfalso. apply Hn. lra. }
  destruct (filter_prefix p N Hp) as (_ & Ht & Hf). rewrite <- Hcount in *.
  split.
  - specialize (Ht (c - 1)%nat ltac:(lia)). unfold p in Ht. cbn [fleb] in Ht.
    destruct (Rle_dec (bin_edge N (c - 1)) y); [assumption | discriminate].
  - destruct (Nat.eq_dec c N) as [-> | Hne].
    + rewrite (bin_edge_last HN). lra.
    + specialize (Hf c ltac:(lia)). unfold p in Hf. cbn [fleb] in Hf.
      destruct (Rle_dec (bin_edge N c) y); [discriminate | lra].
Qed.

Lemma level_of_error (N : nat) (y : R) :
  N <> 0%nat -> (-1 <= y <= 1)%R ->
  (Rabs (level_of N y - y) <= 1 / INR N)%R.
Proof.
  intros HN Hy.
  destruct (digitize_bracket HN Hy) as [Hc [Hlo Hhi]].
  unfold level_of. set (c := digitize1 (nudged_bins N) (Fin y)) in *.
  rewrite levels_nth by lia.
  assert (HNR : (0 < INR N)%R) by (apply lt_0_INR; lia).
  assert (Hi : (0 < / INR N)%R) by now apply Rinv_0_lt_compat.
  assert (Hc1 : INR c = (INR (c - 1) + 1)%R)
    by (rewrite <- S_INR; f_equal; lia).
  unfold bin_edge in Hlo, Hhi. rewrite Hc1 in Hhi.
  unfold Rdiv in *. apply Rabs_le. split; nra.
Qed.

(** X15. For a real-valued signal with a nonzero peak, each value
    [quantize] returns is within [1 / 2^n], half a bin width, of the
    normalized sample it stands for. *)
Theorem quantize_error (h : heap) (x : ref) (n : nat) (rs : list R)
  (Hx : h x = of_reals rs) (Hpk : peak rs <> 0%R) :
  exists (out : list R) (h' : heap),
    quantize x n h = Ok (of_reals out, h') /\
    length out = length rs /\
    forall i, (i < length rs)%nat ->
      (Rabs (nth i out 0 - nth i rs 0 / peak rs) <= 1 / INR (2 ^ n))%R.
Proof.
  assert (Hne : rs <> []) by (intros ->; now apply Hpk).
  assert (HN : (2 ^ n)%nat <> 0%nat) by (apply Nat.pow_nonzero; discriminate).
  assert (Hpos : (0 < peak rs)%R) by (pose proof (peak_nonneg rs); lra).
  pose proof (@quantize_run h x n rs Hx Hne Hpk) as Hrun. cbv zeta in Hrun.
  pose proof (@normalized_range rs Hpos) as Hrange.
  eexists. eexists. split; [exact Hrun | ].
  split; [now rewrite !length_map | ].
  intros i Hi.
  set (f := fun y => level_of (2 ^ n) y).
  rewrite (nth_indep _ 0%R (f (0 / peak rs)%R)) by (now rewrite !length_map).
  change (map (level_of (2 ^ n))) with (map f). rewrite (map_nth f).
  rewrite (map_nth (fun v => v / peak rs)%R).
  apply level_of_error; [assumption | ].
  rewrite Forall_forall in Hrange. apply Hrange.
  apply in_map_iff. exists (nth i rs 0%R). split; [reflexivity | ].
  now apply nth_In.
Qed.

Lemma quantize_error_witness :
  exists (out : list R) (h' : heap),
    quantize 0 2 (fun _ => of_reals [3; -6]%R) = Ok (of_reals out, h') /\
    length out = 2%nat.
Proof.
  destruct (@quantize_error (fun _ => of_reals [3; -6]%R) 0%nat 2%nat [3; -6]%R
              eq_refl ltac:(rewrite peak_3_6; lra))
    as (out & h' & Hrun & Hlen & _).
  exists out, h'. split; assumption.
Defined.

(** ** Pre-emphasis *)

Lemma nth_of_reals (xs : list R) (k : nat) :
  nth k (of_reals xs) (Fin 0) = Fin (nth k xs 0%R).
Proof. unfold of_reals. apply (map_nth Fin). Qed.

Lemma lfilter_fir_nonempty (b x : ndarray) :
  x <> [] ->
  lfilter_fir b x
  = Ok (map (fun n =>
               fsum (map (fun k =>
                            fmul (nth k (map (fun c => fdiv c (Fin 1)) b) (Fin 0))
                              (nth (n - k) x (Fin 0)))
                       (seq 0 (Nat.min (length (map (fun c => fdiv c (Fin 1)) b))
                                 (S n)))))
          (seq 0 (length x))).
Proof. intros Hx. destruct x; [congruence | reflexivity]. Qed.

(** The first-order difference the filter computes at sample [n]. *)
Lemma pre_emphasis_tap (xs : list R) (a : R) (n : nat) :
  let b := map (fun c => fdiv c (Fin 1)) [Fin 1; fneg (Fin a)] in
  fsum (map (fun k => fmul (nth k b (Fin 0)) (nth (n - k) (of_reals xs) (Fin 0)))
          (seq 0 (Nat.min (length b) (S n))))
  = Fin (match n with
         | O => nth 0 xs 0%R
         | S m => (nth (S m) xs 0 - a * nth m xs 0)%R
         end).
Proof.
  cbv zeta. cbn [map fneg length]. rewrite !fdiv_fin by lra.
  destruct n as [ | m].
  - cbn [Nat.min seq map nth Nat.sub]. rewrite nth_of_reals.
    unfold fsum. cbn [fold_left fmul fadd]. f_equal. field.
  - cbn [Nat.min seq map nth Nat.sub]. rewrite Nat.sub_0_r, !nth_of_reals.
    unfold fsum. cbn [fold_left fmul fadd]. f_equal. field.
Qed.

(** X16. On a non-empty real-valued signal, [pre_emphasis] returns as
    many samples as it is given: the first one unchanged, and each later
    one minus [alpha] times its predecessor; with [alpha = 0] the signal
    is returned as it is. *)
Theorem pre_emphasis_difference (xs : list R) (a : R) (Hne : xs <> []) :
  exists ys,
    pre_emphasis (of_reals xs) (Fin a) = Ok (of_reals ys) /\
    length ys = length xs /\
    nth 0 ys 0%R = nth 0 xs 0%R /\
    (forall m, (S m < length xs)%nat ->
       nth (S m) ys 0%R = (nth (S m) xs 0 - a * nth m xs 0)%R) /\
    (a = 0%R -> ys = xs).
Proof.
  set (tap := fun n => match n with
                       | O => nth 0 xs 0%R
                       | S m => (nth (S m) xs 0 - a * nth m xs 0)%R
                       end).
  assert (Hnth : forall n, (n < length xs)%nat ->
                   nth n (map tap (seq 0 (length xs))) 0%R = tap n).
  { intros n Hn.
    rewrite (nth_indep _ 0%R (tap 0%nat)) by (now rewrite length_map, length_seq).
    now rewrite (map_nth tap), seq_nth. }
  exists (map tap (seq 0 (length xs))).
  split; [ | split; [ | split; [ | split]]].
  - unfold pre_emphasis.
    rewrite lfilter_fir_nonempty
      by (destruct xs; [congruence | discriminate]).
    replace (length (of_reals xs)) with (length xs)
      by (unfold of_reals; now rewrite length_map).
    transitivity (Ok (A := ndarray)
                    (map (fun n => Fin (tap n)) (seq 0 (length xs)))).
    + apply f_equal, map_ext. intros n. exact (pre_emphasis_tap xs a n).
    + unfold of_reals. now rewrite map_map.
  - now rewrite length_map, length_seq.
  - apply Hnth. destruct xs; [congruence | cbn; lia].
  - intros m Hm. now apply Hnth.
  - intros ->. apply nth_ext with (d := 0%R) (d' := 0%R).
    + now rewrite length_map, length_seq.
    + intros n Hn. rewrite length_map, length_seq in Hn.
      rewrite Hnth by assumption. destruct n; cbn [tap]; [reflexivity | ring].
Qed.

Lemma pre_emphasis_difference_witness :
  exists ys,
    pre_emphasis (of_reals [1; 2; 4]%R) (Fin (1 / 2)) = Ok (of_reals ys) /\
    length ys = 3%nat.
Proof.
  destruct (@pre_emphasis_difference [1; 2; 4]%R (1 / 2)%R ltac:(discriminate))
    as (ys & Hrun & Hlen & _).
  exists ys. split; assumption.
Defined.

(** ** Dithering and white noise *)

Lemma zip_with_add_nothing (sig : ndarray) (ns : list R) :
  length ns = length sig ->
  zip_with fadd sig (map (fun v => fmul v (Fin 0)) (of_reals ns)) = sig.
Proof.
  revert ns. induction sig as [ | v sig IH]; intros [ | u ns] Hlen;
    try discriminate; cbn [of_reals map zip_with]; [reflexivity | ].
  cbn [fmul]. rewrite Rmult_0_r, fadd_zero_r. f_equal.
  apply IH. cbn in Hlen. lia.
Qed.

(** X17. [dither] raises nothing, returns as many samples as the signal
    has and consumes one draw per sample; with a zero scale it returns
    the signal as it is. *)
Theorem dither_length (sig : ndarray) (scale : float64) (g : rng) :
  (exists out,
     dither sig scale g = Ok (out, fun i => g (length sig + i)%nat) /\
     length out = length sig) /\
  dither sig (Fin 0) g = Ok (sig, fun i => g (length sig + i)%nat).
Proof.
  assert (Hlen : forall s : float64,
             length (map (fun v => fmul v s) (of_reals (map g (seq 0 (length sig)))))
             = length sig).
  { intros s. unfold of_reals. now rewrite !length_map, length_seq. }
  split.
  - unfold dither, bind, rand_normal, lift, np_add, broadcast.
    rewrite Hlen, Nat.eqb_refl.
    eexists. split; [reflexivity | ].
    rewrite zip_with_length, Hlen. apply Nat.min_id.
  - unfold dither, bind, rand_normal, lift, np_add, broadcast.
    rewrite Hlen, Nat.eqb_refl.
    now rewrite zip_with_add_nothing by (now rewrite length_map, length_seq).
Qed.

Lemma same_length_noise (x n : ndarray) (g : rng) :
  length n = length x ->
  (if (length n <? length x)%nat
   then bind (lift (ceil_div (length x) (length n)))
          (fun reps => ret (firstn (length x) (np_tile n reps)))
   else ret (firstn (length x) n)) g
  = Ok (n, g).
Proof.
  intros Hlen. rewrite Hlen, Nat.ltb_irrefl. unfold ret.
  now rewrite <- Hlen, firstn_all.
Qed.

(** X18. [add_white_noise] draws one deviate per sample and then: at
    SNR [+inf] returns the signal itself; at SNR [-inf] returns the
    deviates themselves, unscaled; at any other SNR, or with the SNR
    left out, returns the signal plus exactly what [white_noise]
    returns from the same state of the random source. *)
Theorem add_white_noise_regimes (x : ndarray) (snr : option float64) (g : rng) :
  add_white_noise x (Some PInf) g = Ok (x, fun i => g (length x + i)%nat) /\
  add_white_noise x (Some NInf) g
  = Ok (of_reals (map g (seq 0 (length x))), fun i => g (length x + i)%nat) /\
  (snr_eqb snr PInf = false -> snr_eqb snr NInf = false ->
   add_white_noise x snr g
   = bind (white_noise x snr) (fun noise => lift (np_add x noise)) g).
Proof.
  set (n := of_reals (map g (seq 0 (length x)))).
  assert (Hlen : length n = length x)
    by (unfold n, of_reals; now rewrite !length_map, length_seq).
  split; [ | split].
  - unfold add_white_noise, bind at 1, rand_normal. fold n.
    unfold add_noise, bind, additive_noise. cbn [snr_eqb feqb].
    unfold ret, lift, np_add, broadcast.
    replace (length (np_zeros_like x)) with (length x)
      by (unfold np_zeros_like; now rewrite length_map).
    now rewrite Nat.eqb_refl, zip_with_zeros.
  - unfold add_white_noise, bind at 1, rand_normal. fold n.
    unfold add_noise, additive_noise. cbn [snr_eqb feqb].
    unfold bind at 1 2. now rewrite same_length_noise by assumption.
  - intros HP HN.
    unfold add_white_noise, white_noise, bind at 1 5, rand_normal. fold n.
    unfold add_noise, additive_noise. rewrite HP, HN.
    unfold bind at 1 2. rewrite same_length_noise by assumption.
    destruct snr as [s | ]; reflexivity.
Qed.



Lemma add_noise_same_length (x n : ndarray) (snr : option float64) (g : rng) :
  length n = length x -> snr_in_range snr g ->
  exists out g', add_noise x n snr g = Ok (out, g') /\ length out = length x.
Proof.
  intros Hlen Hrange. apply add_noise_after_additive.
  apply additive_noise_adjusted with (nn := n); trivial.
  now apply same_length_noise.
Qed.

(** X20. [add_white_noise_rand] first draws [u] and fixes the SNR at
    [(u - 0.25) * 20] dB, a value of [-5, 15); it then behaves as
    [add_white_noise] at that SNR, raises nothing, even on an empty
    signal, and returns as many samples as the signal has. *)
Theorem add_white_noise_rand_snr (x : ndarray) (g : rng)
  (Hu : (0 <= g 0%nat < 1)%R) :
  exists (r : R) (out : ndarray) (g' : rng),
    r = ((g 0%nat - 1 / 4) * 20)%R /\ (-5 <= r < 15)%R /\
    add_white_noise_rand x g
    = add_white_noise x (Some (Fin r)) (fun i => g (S i)) /\
    add_white_noise_rand x g = Ok (out, g') /\
    length out = length x.
Proof.
  set (r := ((g 0%nat - 1 / 4) * 20)%R).
  assert (Hrun : add_white_noise_rand x g
                 = add_white_noise x (Some (Fin r)) (fun i => g (S i)))
    by reflexivity.
  destruct (@add_noise_same_length x
              (of_reals (map (fun i => g (S i)) (seq 0 (length x))))
              (Some (Fin r)) (fun i => g (S (length x + i))))
    as (out & g' & Hadd & Hlen).
  { unfold of_reals. now rewrite !length_map, length_seq. }
  { cbn [snr_in_range]. apply pow10_in_range. unfold r. lra. }
  exists r, out, g'. split; [reflexivity | ]. split; [unfold r; lra | ].
  split; [exact Hrun | ]. split; [ | exact Hlen].
  rewrite Hrun. unfold add_white_noise, bind at 1, rand_normal. exact Hadd.
Qed.

Lemma add_white_noise_rand_snr_witness :
  exists (r : R) (out : ndarray) (g' : rng),
    (-5 <= r < 15)%R /\
    add_white_noise_rand [Fin 1; Fin 2] (fun _ => (1 / 2)%R) = Ok (out, g') /\
    length out = 2%nat.
Proof.
  destruct (@add_white_noise_rand_snr [Fin 1; Fin 2] (fun _ => (1 / 2)%R)
              ltac:(lra)) as (r & out & g' & _ & Hr & _ & Hrun & Hlen).
  exists r, out, g'. repeat split; try assumption; apply Hr.
Defined.

Lemma add_white_noise_regimes_witness :
  add_white_noise [Fin 1; Fin 2] None (fun _ => (1 / 2)%R)
  = bind (white_noise [Fin 1; Fin 2] None)
      (fun noise => lift (np_add [Fin 1; Fin 2] noise)) (fun _ => (1 / 2)%R).
Proof.
  exact (proj2 (proj2 (@add_white_noise_regimes [Fin 1; Fin 2] None
                         (fun _ => (1 / 2)%R))) eq_refl eq_refl).
Defined.
